(** * Gratipay database self-checks ([gratipay/models/__init__.py])

    A shallow embedding of [check_db] and the five SQL self-checks it runs
    on a cursor, with the relational operators the queries use written as
    functions on lists of rows (bags). *)

From Stdlib Require Import List ZArith String Bool Lia.
Import ListNotations.

Local Open Scope string_scope.
Local Open Scope Z_scope.
Local Open Scope list_scope.

(** ** Relational operators *)

Module Sql.

(** [sum(...)] over a bag of numeric values. *)
Definition zsum (l : list Z) : Z := fold_right Z.add 0 l.

(** The distinct values of the grouping column. *)
Definition keys (rows : list (string * Z)) : list string :=
  nodup string_dec (map fst rows).

(** The aggregate [sum(v)] of the group whose grouping column is [k]. *)
Definition sum_of (k : string) (rows : list (string * Z)) : Z :=
  zsum (map snd (filter (fun r => fst r =? k)%string rows)).

(** [select k, sum(v) from rows group by k]: one output row per distinct
    value of [k]; a group exists only if some input row carries its key. *)
Definition group_sum (rows : list (string * Z)) : list (string * Z) :=
  map (fun k => (k, sum_of k rows)) (keys rows).

(** [a join b on on_ a b], as a nested loop over [a]. *)
Definition join {A B : Type} (on_ : A -> B -> bool)
           (a : list A) (b : list B) : list (A * B) :=
  flat_map (fun x => map (fun y => (x, y)) (filter (on_ x) b)) a.

(** First output row whose grouping column is [k], if any. *)
Definition lookup (k : string) (rows : list (string * Z)) : option Z :=
  option_map snd (find (fun r => fst r =? k)%string rows).

(** Whether some row carries the grouping value [k]. *)
Definition has_key (k : string) (rows : list (string * Z)) : bool :=
  existsb (fun r => fst r =? k)%string rows.

End Sql.

(** ** Tables

    Modelled from the spec: the table declarations (the SQL schema is not
    part of the source).  Each record keeps the columns the queries name,
    with the types of the spec's external interfaces: identities and slugs
    are text, amounts are exact fixed-point decimals (an integer number of
    the smallest currency unit), timestamps are integers; every column is
    NOT NULL. *)

Record exchange := mk_exchange
  { x_participant : string; x_amount : Z; x_fee : Z; x_status : string }.

Record transfer := mk_transfer
  { t_tipper : string; t_tippee : string; t_amount : Z }.

Record payment := mk_payment
  { pay_participant : string; pay_team : string;
    pay_amount : Z; pay_direction : string }.

Record participant := mk_participant
  { p_username : string; p_balance : Z }.

Record team := mk_team { team_slug : string }.

Record payday := mk_payday { ts_start : Z; ts_end : Z }.

Record tip := mk_tip
  { tip_tipper : string; tip_tippee : string; tip_mtime : Z; tip_amount : Z }.

Record elsewhere_row := mk_elsewhere { e_participant : string }.

Record absorption := mk_absorption { archived_as : string }.

(** What a cursor reads: one snapshot of every relation the checks query.
    [current_tips] is a view whose definition is not part of the source; the
    snapshot carries its rows as the cursor sees them. *)
Record cursor := mk_cursor
  { exchanges : list exchange;
    transfers : list transfer;
    payments : list payment;
    participants : list participant;
    teams : list team;
    paydays : list payday;
    tips : list tip;
    current_tips : list tip;
    elsewhere : list elsewhere_row;
    absorptions : list absorption }.

(** ** The query of [_check_balances] *)

Module Balances.
Import Sql.

(** [where amount > 0 and (status = 'unknown' or status = 'succeeded')] *)
Definition credit_filter (e : exchange) : bool :=
  (x_amount e >? 0)
  && ((x_status e =? "unknown")%string || (x_status e =? "succeeded")%string).

(** [where amount < 0 and (status = 'unknown' or status <> 'failed')] *)
Definition debit_filter (e : exchange) : bool :=
  (x_amount e <? 0)
  && ((x_status e =? "unknown")%string || negb (x_status e =? "failed")%string).

Definition to_participant (p : payment) : bool :=
  (pay_direction p =? "to-participant")%string.

Definition to_team (p : payment) : bool :=
  (pay_direction p =? "to-team")%string.

(** The six branches of the [union all], each grouped on its own. *)
Definition exchanges_credit (c : cursor) : list (string * Z) :=
  group_sum (map (fun e => (x_participant e, x_amount e))
                 (filter credit_filter (exchanges c))).

Definition exchanges_debit (c : cursor) : list (string * Z) :=
  group_sum (map (fun e => (x_participant e, x_amount e - x_fee e))
                 (filter debit_filter (exchanges c))).

Definition transfers_out (c : cursor) : list (string * Z) :=
  group_sum (map (fun t => (t_tipper t, - t_amount t)) (transfers c)).

Definition payments_in (c : cursor) : list (string * Z) :=
  group_sum (map (fun p => (pay_participant p, pay_amount p))
                 (filter to_participant (payments c))).

Definition payments_out (c : cursor) : list (string * Z) :=
  group_sum (map (fun p => (pay_participant p, - pay_amount p))
                 (filter to_team (payments c))).

Definition transfers_in (c : cursor) : list (string * Z) :=
  group_sum (map (fun t => (t_tippee t, t_amount t)) (transfers c)).

(** [... as foo] *)
Definition foo (c : cursor) : list (string * Z) :=
  exchanges_credit c ++ exchanges_debit c ++ transfers_out c
    ++ payments_in c ++ payments_out c ++ transfers_in c.

(** [select username, sum(a) as expected from foo group by username] *)
Definition foo2 (c : cursor) : list (string * Z) := group_sum (foo c).

(** The expected balance of [u]: its row of [foo2], when it has one. *)
Definition expected (c : cursor) (u : string) : option Z :=
  lookup u (foo2 c).

(** [select p.username, expected, balance as actual
     from foo2 join participants p on p.username = foo2.username
     where expected <> p.balance] *)
Definition query (c : cursor) : list (string * Z * Z) :=
  map (fun r => (p_username (snd r), snd (fst r), p_balance (snd r)))
      (filter (fun r => negb (snd (fst r) =? p_balance (snd r)))
              (join (fun f p => (p_username p =? fst f)%string)
                    (foo2 c) (participants c))).

End Balances.

(** ** The queries of [_check_no_team_balances] *)

Module TeamBalances.
Import Sql.

(** [select exists (select * from paydays where ts_end < ts_start)] *)
Definition running (c : cursor) : bool :=
  existsb (fun d => ts_end d <? ts_start d) (paydays c).

Definition foo (c : cursor) : list (string * Z) :=
  group_sum (map (fun p => (pay_team p, - pay_amount p))
                 (filter Balances.to_participant (payments c)))
    ++ group_sum (map (fun p => (pay_team p, pay_amount p))
                      (filter Balances.to_team (payments c))).

(** [select team, sum(delta) as balance from foo group by team] *)
Definition foo2 (c : cursor) : list (string * Z) := group_sum (foo c).

(** [select t.slug, balance from foo2 join teams t on t.slug = foo2.team
     where balance <> 0] *)
Definition query (c : cursor) : list (string * Z) :=
  map (fun r => (team_slug (snd r), snd (fst r)))
      (filter (fun r => negb (snd (fst r) =? 0))
              (join (fun f t => (team_slug t =? fst f)%string)
                    (foo2 c) (teams c))).

End TeamBalances.

(** ** The query of [_check_tips] *)

Module Tips.

Definition tip_eqb (a b : tip) : bool :=
  (tip_tipper a =? tip_tipper b)%string
  && (tip_tippee a =? tip_tippee b)%string
  && (tip_mtime a =? tip_mtime b)
  && (tip_amount a =? tip_amount b).

(** Equality on the [distinct on (tipper, tippee, mtime)] expressions. *)
Definition same_key (a b : tip) : bool :=
  (tip_tipper a =? tip_tipper b)%string
  && (tip_tippee a =? tip_tippee b)%string
  && (tip_mtime a =? tip_mtime b).

(** [order by tipper, tippee, mtime].  The clause closes the whole
    [except], not its second operand: it sorts the rows that are
    counted. *)
Definition key_compare (a b : tip) : comparison :=
  match String.compare (tip_tipper a) (tip_tipper b) with
  | Eq => match String.compare (tip_tippee a) (tip_tippee b) with
          | Eq => Z.compare (tip_mtime a) (tip_mtime b)
          | o => o
          end
  | o => o
  end.

Fixpoint insert (r : tip) (sorted : list tip) : list tip :=
  match sorted with
  | [] => [r]
  | s :: rest =>
      match key_compare r s with
      | Gt => s :: insert r rest
      | _ => r :: sorted
      end
  end.

Definition order_by (rows : list tip) : list tip :=
  fold_right insert [] rows.

(** [select distinct on (tipper, tippee, mtime) * from tips]: one row per
    key.  The operand has no [order by] of its own, so the row kept is the
    first one the scan meets; the order of the list stands for the order
    of the scan. *)
Fixpoint distinct_on_seen (seen rows : list tip) : list tip :=
  match rows with
  | [] => []
  | r :: rest =>
      if existsb (same_key r) seen then distinct_on_seen seen rest
      else r :: distinct_on_seen (r :: seen) rest
  end.

Definition distinct_on (rows : list tip) : list tip :=
  distinct_on_seen [] rows.

(** Removal of duplicate rows, as the set operators do. *)
Fixpoint distinct (rows : list tip) : list tip :=
  match rows with
  | [] => []
  | r :: rest =>
      if existsb (tip_eqb r) rest then distinct rest else r :: distinct rest
  end.

(** [a except b]: the distinct rows of [a] that do not occur in [b]. *)
Definition except (a b : list tip) : list tip :=
  distinct (filter (fun r => negb (existsb (tip_eqb r) b)) a).

(** [select count( * ) from (select * from tips except
     select distinct on (tipper, tippee, mtime) * from tips
     order by tipper, tippee, mtime) as foo] *)
Definition query (c : cursor) : Z :=
  Z.of_nat (List.length
              (order_by (except (tips c) (distinct_on (tips c))))).

End Tips.

(** ** The queries of [_check_orphans] and [_check_orphans_no_tips] *)

Module Orphans.

(** [exists (select * from elsewhere where elsewhere.participant = u)] *)
Definition has_elsewhere (c : cursor) (u : string) : bool :=
  existsb (fun e => (e_participant e =? u)%string) (elsewhere c).

(** [exists (select * from absorptions where archived_as = u)] *)
Definition was_absorbed (c : cursor) (u : string) : bool :=
  existsb (fun a => (archived_as a =? u)%string) (absorptions c).

Definition query (c : cursor) : list string :=
  map p_username
      (filter (fun p => negb (has_elsewhere c (p_username p))
                        && negb (was_absorbed c (p_username p)))
              (participants c)).

(** [with valid_tips as (select * from current_tips where amount > 0)] *)
Definition valid_tips (c : cursor) : list tip :=
  filter (fun t => tip_amount t >? 0) (current_tips c).

(** [select tipper ... union select tippee ...], duplicates removed. *)
Definition tip_parties (c : cursor) : list string :=
  nodup string_dec
        (map tip_tipper (valid_tips c) ++ map tip_tippee (valid_tips c)).

Definition query_no_tips (c : cursor) : list string :=
  filter (fun u => negb (has_elsewhere c u)) (tip_parties c).

End Orphans.

(** ** Running statements and assertions

    A check executes statements on the cursor and then asserts on the
    answer.  A failed [assert] raises [AssertionError] and nothing after it
    runs.  The state threaded through is the list of statements the cursor
    has executed so far. *)

Inductive statement :=
| select_balances
| select_payday_running
| select_team_balances
| select_conflicting_tips
| select_orphans
| select_orphans_with_tips.

(** The raised assertion, with the value its message is formatted from. *)
Inductive AssertionError :=
| conflicting_balances (b : list (string * Z * Z))
| teams_with_nonzero_balance (teams : list (string * Z))
| conflicting_tips_nonzero
| missing_elsewheres (orphans : list string)
| orphans_with_tips (orphans : list string).

Definition M (A : Type) : Type :=
  list statement -> list statement * (AssertionError + A).

Definition ret {A : Type} (a : A) : M A := fun log => (log, inr a).

Definition bind {A B : Type} (m : M A) (k : A -> M B) : M B :=
  fun log =>
    match m log with
    | (log', inl err) => (log', inl err)
    | (log', inr a) => k a log'
    end.

Notation "x <- m ;; k" := (bind m (fun x => k))
  (at level 61, m at next level, right associativity).
Notation "m ;; k" := (bind m (fun _ => k))
  (at level 61, right associativity).

(** [cursor.all] and [cursor.one]: run a statement, return its answer. *)
Definition execute {A : Type} (s : statement) (answer : A) : M A :=
  fun log => (log ++ [s], inr answer).

(** [assert cond, message] *)
Definition assert (cond : bool) (err : AssertionError) : M unit :=
  fun log => (log, if cond then inr tt else inl err).

Definition is_empty {A : Type} (l : list A) : bool :=
  match l with [] => true | _ => false end.

Definition _check_tips (c : cursor) : M unit :=
  conflicting_tips <- execute select_conflicting_tips (Tips.query c) ;;
  assert (conflicting_tips =? 0) conflicting_tips_nonzero.

Definition _check_balances (c : cursor) : M unit :=
  b <- execute select_balances (Balances.query c) ;;
  assert (is_empty b) (conflicting_balances b).

Definition _check_no_team_balances (c : cursor) : M unit :=
  running <- execute select_payday_running (TeamBalances.running c) ;;
  if running then ret tt
  else
    teams <- execute select_team_balances (TeamBalances.query c) ;;
    assert (is_empty teams) (teams_with_nonzero_balance teams).

Definition _check_orphans (c : cursor) : M unit :=
  orphans <- execute select_orphans (Orphans.query c) ;;
  assert (is_empty orphans) (missing_elsewheres orphans).

Definition _check_orphans_no_tips (c : cursor) : M unit :=
  orphans <- execute select_orphans_with_tips (Orphans.query_no_tips c) ;;
  assert (is_empty orphans) (orphans_with_tips orphans).

Definition check_db (c : cursor) : M unit :=
  _check_balances c ;;
  _check_no_team_balances c ;;
  _check_tips c ;;
  _check_orphans c ;;
  _check_orphans_no_tips c.

(** [self_check]: a fresh cursor, nothing executed yet. *)
Definition self_check (c : cursor) : list statement * (AssertionError + unit) :=
  check_db c [].

(** ** The ledger as the specification words it

    The signed contributions of section 4.1 and the team delta of section
    4.2, written event by event; the theorems below compare the SQL above
    with them. *)

Module Ledger.
Import Sql.

Definition exchange_contribution (e : exchange) : Z :=
  if (0 <? x_amount e)
     && ((x_status e =? "succeeded")%string || (x_status e =? "unknown")%string)
  then x_amount e
  else if (x_amount e <? 0) && negb (x_status e =? "failed")%string
       then x_amount e - x_fee e
       else 0.

Definition transfer_contribution (u : string) (t : transfer) : Z :=
  (if (t_tipper t =? u)%string then - t_amount t else 0)
  + (if (t_tippee t =? u)%string then t_amount t else 0).

Definition payment_contribution (p : payment) : Z :=
  if (pay_direction p =? "to-participant")%string then pay_amount p
  else if (pay_direction p =? "to-team")%string then - pay_amount p
       else 0.

(** The signed sum of every contribution of [u]. *)
Definition signed_sum (c : cursor) (u : string) : Z :=
  zsum (map (fun e => if (x_participant e =? u)%string
                      then exchange_contribution e else 0) (exchanges c))
  + zsum (map (transfer_contribution u) (transfers c))
  + zsum (map (fun p => if (pay_participant p =? u)%string
                        then payment_contribution p else 0) (payments c)).

(** An exchange that enters one of the two exchange streams. *)
Definition counted (e : exchange) : bool :=
  ((0 <? x_amount e)
   && ((x_status e =? "succeeded")%string || (x_status e =? "unknown")%string))
  || ((x_amount e <? 0) && negb (x_status e =? "failed")%string).

Definition directed (p : payment) : bool :=
  (pay_direction p =? "to-participant")%string
  || (pay_direction p =? "to-team")%string.

(** Whether [u] occurs in at least one of the contribution streams. *)
Definition has_events (c : cursor) (u : string) : bool :=
  existsb (fun e => (x_participant e =? u)%string && counted e) (exchanges c)
  || existsb (fun t => (t_tipper t =? u)%string || (t_tippee t =? u)%string)
             (transfers c)
  || existsb (fun p => (pay_participant p =? u)%string && directed p)
             (payments c).

(** The balance the reconciler of section 4.2 compares with the stored
    one: [expected.get(identity, 0)]. *)
Definition expected_or_zero (c : cursor) (u : string) : Z :=
  if has_events c u then signed_sum c u else 0.

Definition sum_to_team (c : cursor) (s : string) : Z :=
  zsum (map pay_amount
            (filter (fun p => (pay_team p =? s)%string
                              && (pay_direction p =? "to-team")%string)
                    (payments c))).

Definition sum_to_participant (c : cursor) (s : string) : Z :=
  zsum (map pay_amount
            (filter (fun p => (pay_team p =? s)%string
                              && (pay_direction p =? "to-participant")%string)
                    (payments c))).

(** [delta = sum(to-team amounts) - sum(to-participant amounts)] *)
Definition team_delta (c : cursor) (s : string) : Z :=
  sum_to_team c s - sum_to_participant c s.

End Ledger.

(** ** Snapshots that differ in one relation *)

Definition with_exchanges (c : cursor) (l : list exchange) : cursor :=
  mk_cursor l (transfers c) (payments c) (participants c) (teams c)
            (paydays c) (tips c) (current_tips c) (elsewhere c) (absorptions c).

Definition with_paydays (c : cursor) (l : list payday) : cursor :=
  mk_cursor (exchanges c) (transfers c) (payments c) (participants c) (teams c)
            l (tips c) (current_tips c) (elsewhere c) (absorptions c).

Definition with_elsewhere (c : cursor) (l : list elsewhere_row) : cursor :=
  mk_cursor (exchanges c) (transfers c) (payments c) (participants c) (teams c)
            (paydays c) (tips c) (current_tips c) l (absorptions c).

Definition with_absorptions (c : cursor) (l : list absorption) : cursor :=
  mk_cursor (exchanges c) (transfers c) (payments c) (participants c) (teams c)
            (paydays c) (tips c) (current_tips c) (elsewhere c) l.

Definition empty_cursor : cursor :=
  mk_cursor [] [] [] [] [] [] [] [] [] [].

(** A small snapshot used to exercise the queries. *)
Definition sample : cursor :=
  mk_cursor
    [mk_exchange "alice" 100 2 "succeeded";
     mk_exchange "alice" (-30) 1 "pending";
     mk_exchange "alice" (-50) 1 "failed";
     mk_exchange "bob" 10 0 "failed";
     mk_exchange "carol" 0 0 "unknown"]
    [mk_transfer "alice" "bob" 20]
    [mk_payment "bob" "gratiteam" 5 "to-team"]
    [mk_participant "alice" 49; mk_participant "bob" 16;
     mk_participant "carol" 7]
    [mk_team "gratiteam"]
    [mk_payday 0 10]
    [mk_tip "alice" "bob" 1 3; mk_tip "alice" "bob" 2 3;
     mk_tip "alice" "bob" 2 4; mk_tip "alice" "bob" 2 4]
    [mk_tip "alice" "bob" 2 4]
    [mk_elsewhere "alice"]
    [mk_absorption "carol"].

(** ** Keys of the tips relation *)

(** The [(tipper, tippee, mtime)] triple of a row. *)
Definition tip_key (t : tip) : string * string * Z :=
  (tip_tipper t, tip_tippee t, tip_mtime t).

Definition key_dec (a b : string * string * Z) : {a = b} + {a <> b}.
Proof.
  decide equality; [apply Z.eq_dec | decide equality; apply string_dec].
Defined.

Definition tip_dec (a b : tip) : {a = b} + {a <> b}.
Proof.
  decide equality; first [apply Z.eq_dec | apply string_dec].
Defined.

(** * Utilities ([gratipay/utils/__init__.py]) *)

From Stdlib Require Import Permutation Ascii.

(** ** [get_featured_projects] *)

Module Featured.

(** The teams table is declared outside the source; a row keeps the
    columns this query names, each taken NOT NULL. *)
Record team_row := mk_team_row
  { tr_slug : string;
    tr_is_closed : bool;
    tr_is_approved : bool;
    tr_nreceiving_from : Z }.

Definition team_row_dec (a b : team_row) : {a = b} + {a <> b}.
Proof.
  decide equality;
    first [apply Z.eq_dec | apply bool_dec | apply string_dec].
Defined.

(** [with eligible_teams as
     (select * from teams where not is_closed and is_approved)] *)
Definition eligible_teams (teams : list team_row) : list team_row :=
  filter (fun t => negb (tr_is_closed t) && tr_is_approved t) teams.

Definition is_popular (t : team_row) : bool := tr_nreceiving_from t >? 5.

Definition is_unpopular (t : team_row) : bool := tr_nreceiving_from t <=? 5.

(** [where nreceiving_from > 5] and [where nreceiving_from <= 5] *)
Definition popular (teams : list team_row) : list team_row :=
  filter is_popular (eligible_teams teams).

Definition unpopular (teams : list team_row) : list team_row :=
  filter is_unpopular (eligible_teams teams).

(** The first statement: the two [count(1)] sub-selects. *)
Definition counts (teams : list team_row) : Z * Z :=
  (Z.of_nat (List.length (popular teams)),
   Z.of_nat (List.length (unpopular teams))).

(** The arithmetic between the two statements:
    [if npopular >= 7: npopular = max(7, 10 - nunpopular)] and
    [nunpopular = min(nunpopular, 10 - npopular)]. *)
Definition limits (npopular nunpopular : Z) : Z * Z :=
  let npopular :=
    if npopular >=? 7 then Z.max 7 (10 - nunpopular) else npopular in
  let nunpopular := Z.min nunpopular (10 - npopular) in
  (npopular, nunpopular).

(** [limit n]: a negative [n] is an error of the database. *)
Definition limit {A : Type} (n : Z) (rows : list A) : option (list A) :=
  if n <? 0 then None else Some (firstn (Z.to_nat n) rows).

(** [order by random()] twice and [random.shuffle] once: the three random
    orders are arguments. *)
Definition get_featured_projects
           (random_popular random_unpopular shuffle
              : list team_row -> list team_row)
           (teams : list team_row) : option (list team_row) :=
  let (npopular, nunpopular) := counts teams in
  let (npopular, nunpopular) := limits npopular nunpopular in
  match limit npopular (random_popular (popular teams)),
        limit nunpopular (random_unpopular (unpopular teams)) with
  | Some a, Some b => Some (shuffle (nodup team_row_dec (a ++ b)))
  | _, _ => None
  end.

End Featured.

(** ** [truncate] *)

Module Truncate.

(** Raised by an index outside a sequence. *)
Inductive IndexError := index_out_of_range.

Section Chars.

(** The characters of [text], the space character [' '], and the test
    behind [rstrip()], which depends on whether [text] is a byte string or
    a unicode string. *)
Variable char : Type.
Variable char_dec : forall a b : char, {a = b} + {a <> b}.
Variable space : char.
Variable isspace : char -> bool.

Definition is_space (c : char) : bool :=
  if char_dec c space then true else false.

Fixpoint drop_while (f : char -> bool) (s : list char) : list char :=
  match s with
  | [] => []
  | c :: rest => if f c then drop_while f rest else s
  end.

(** [s.rstrip()] *)
Definition rstrip (s : list char) : list char :=
  rev (drop_while isspace (rev s)).

(** [s.rsplit(' ', 1)[0]]: what comes before the last space, or all of [s]
    when it holds no space. *)
Fixpoint rsplit_head (s : list char) : list char :=
  match s with
  | [] => []
  | c :: rest =>
      if is_space c && negb (existsb is_space rest) then []
      else c :: rsplit_head rest
  end.

(** [s[i]] for any integer [i]: a negative index counts from the end, and
    an index outside the sequence raises [IndexError] ([None] here). *)
Definition index (s : list char) (i : Z) : option char :=
  if 0 <=? i then nth_error s (Z.to_nat i)
  else if 0 <=? Z.of_nat (List.length s) + i
       then nth_error s (Z.to_nat (Z.of_nat (List.length s) + i))
       else None.

(** [s[:t]] for any integer [t]: a negative bound counts from the end, and
    a bound outside the sequence is clamped. *)
Definition slice_to (s : list char) (t : Z) : list char :=
  if 0 <=? t then firstn (Z.to_nat t) s
  else firstn (Z.to_nat (Z.of_nat (List.length s) + t)) s.

(** The last character of a sequence, if it has one. *)
Definition last_char (s : list char) : option char :=
  match rev s with
  | [] => None
  | c :: _ => Some c
  end.

(** The last four lines of the function: the cut itself.  Both elements of
    the tuple [(truncated[-1], text[target])] are evaluated before [in]
    looks at them. *)
Definition cut (text : list char) (target : Z) : IndexError + list char :=
  let truncated := slice_to text target in
  if target =? 0 then inr (rstrip truncated)
  else
    match index truncated (-1), index text target with
    | Some a, Some b =>
        if is_space a || is_space b then inr (rstrip truncated)
        else inr (rsplit_head truncated)
    | _, _ => inl index_out_of_range
    end.

(** The call with [append = ''], which is all the recursion reaches. *)
Definition truncate_bare (text : list char) (target : Z)
  : IndexError + list char :=
  if Z.of_nat (List.length text) <=? target then inr text
  else cut text target.

(** [truncate(text, target, append)] for any integer [target]. *)
Definition truncate (text : list char) (target : Z) (append : list char)
  : IndexError + list char :=
  if Z.of_nat (List.length text) <=? target then inr text
  else
    match append with
    | _ :: _ =>
        match truncate_bare
                text (Z.max (target - Z.of_nat (List.length append)) 0) with
        | inr shortened => inr (shortened ++ append)
        | inl e => inl e
        end
    | [] => cut text target
    end.

End Chars.

Arguments drop_while {char} f s.
Arguments rstrip {char} isspace s.
Arguments last_char {char} s.
Arguments index {char} s i.
Arguments slice_to {char} s t.
Arguments is_space {char} char_dec space c.
Arguments rsplit_head {char} char_dec space s.
Arguments cut {char} char_dec space isspace text target.
Arguments truncate_bare {char} char_dec space isspace text target.
Arguments truncate {char} char_dec space isspace text target append.

End Truncate.

(** ** Byte strings *)

Module Str.

(** [s[n:]] *)
Fixpoint drop (n : nat) (s : string) : string :=
  match n, s with
  | O, _ => s
  | S n', String _ rest => drop n' rest
  | S _, EmptyString => EmptyString
  end.

(** [s.startswith(p)] *)
Definition startswith (s p : string) : bool := String.prefix p s.

(** The truth value of a string: non-empty. *)
Definition truthy (s : string) : bool :=
  match s with
  | EmptyString => false
  | String _ _ => true
  end.

(** [s.replace(old, new)] for a non-empty [old]: occurrences are replaced
    from the left and do not overlap.  [skip] counts the characters of the
    occurrence just replaced that are still to be passed over. *)
Fixpoint replace_from (old new : string) (skip : nat) (s : string) : string :=
  match s with
  | EmptyString => EmptyString
  | String c rest =>
      match skip with
      | S k => replace_from old new k rest
      | O =>
          if String.prefix old s
          then (new ++ replace_from old new (String.length old - 1) rest)%string
          else String c (replace_from old new 0 rest)
      end
  end.

Definition replace (old new s : string) : string := replace_from old new 0 s.

(** Whether ["</"] occurs in [s]. *)
Definition starts_with_slash (s : string) : bool :=
  match s with
  | String c _ => Ascii.eqb c "/"
  | EmptyString => false
  end.

Fixpoint has_close_tag (s : string) : bool :=
  match s with
  | EmptyString => false
  | String c rest =>
      (Ascii.eqb c "<" && starts_with_slash rest) || has_close_tag rest
  end.

End Str.

(** ** [_munge] and [use_tildes_for_participants] *)

Module Munge.
  Import Str.

(** The two raw strings of a request that the function reads. *)
Record request := mk_request { path_raw : string; qs_raw : string }.

(** [website.redirect(to)] raises the redirecting response; otherwise the
    request goes on, with its path possibly re-initialised. *)
Inductive outcome :=
| redirect (to : string)
| dispatch (r : request).

Definition _munge (r : request) (url_prefix fs_prefix : string) : outcome :=
  if startswith (path_raw r) fs_prefix then
    let to := (url_prefix ++ drop (String.length fs_prefix) (path_raw r))%string in
    let to := if truthy (qs_raw r) then (to ++ "?" ++ qs_raw r)%string else to in
    redirect to
  else if startswith (path_raw r) url_prefix then
    dispatch (mk_request
                (fs_prefix ++ drop (String.length url_prefix) (path_raw r))%string
                (qs_raw r))
  else dispatch r.

Definition use_tildes_for_participants (r : request) : outcome :=
  _munge r "/~" "/~/".

End Munge.

(** ** [to_javascript] *)

Module ToJavascript.

(** [json.dumps(obj).replace('</', '<\\/')], given the dumped object. *)
Definition to_javascript (dumped : string) : string :=
  Str.replace "</" "<\/" dumped.

End ToJavascript.

(** ** [dict_to_querystring] and [canonicalize] *)

Module Canonical.
  Import Str.

(** A mapping from keys to lists of values, in the order its iteration
    yields them. *)
Definition mapping := list (string * list string).

(** [sep.join(parts)] *)
Fixpoint join (sep : string) (parts : list string) : string :=
  match parts with
  | [] => EmptyString
  | [x] => x
  | x :: rest => (x ++ sep ++ join sep rest)%string
  end.

Definition dict_to_querystring (m : mapping) : string :=
  match m with
  | [] => EmptyString
  | _ :: _ =>
      let arguments :=
        flat_map (fun kv => map (fun val => join "=" [fst kv; val]) (snd kv)) m in
      ("?" ++ join "&" arguments)%string
  end.

(** What a call does: nothing, a call of [redirect], or an exception. *)
Inductive outcome :=
| unchanged
| redirect (newpath : string)
| assertion_failed
| type_error.

Section Lower.

(** [s.lower()], a builtin of the language: the case folding of a unicode
    string is not written in the source and is an argument here.  A string
    of the model holds one character for each code point. *)
Variable lower : string -> string.

(** [arguments] is [None] by default; a string cannot be added to [None].
    The [or ''] applies to the whole concatenation. *)
Definition canonicalize (path base canonical given : string)
           (arguments : option mapping) : outcome :=
  if negb (given =? canonical)%string then
    if negb (lower canonical =? lower given)%string then assertion_failed
    else
      let remainder := drop (String.length (base ++ given)%string) path in
      match arguments with
      | None => type_error
      | Some m =>
          let newpath :=
            (base ++ canonical ++ remainder ++ dict_to_querystring m)%string in
          redirect (if truthy newpath then newpath else EmptyString)
      end
  else unchanged.

End Lower.

(** The folding of the letters A to Z, which is all [lower] does to a text
    without other cased letters; used to run examples. *)
Definition ascii_lower_char (c : ascii) : ascii :=
  let n := nat_of_ascii c in
  if ((65 <=? n) && (n <=? 90))%nat then ascii_of_nat (n + 32) else c.

Fixpoint ascii_lower (s : string) : string :=
  match s with
  | EmptyString => EmptyString
  | String c rest => String (ascii_lower_char c) (ascii_lower rest)
  end.

End Canonical.

(** ** [get_participant] *)

Module GetParticipant.
  Import Canonical.

Section Participants.

(** The [Participant] class is declared outside the source: its objects,
    their equality, the attributes read here, and the two methods called;
    [lower] is the builtin [canonicalize] calls. *)
Variable lower : string -> string.
Variable Participant : Type.
Variable participant_eqb : Participant -> Participant -> bool.
Variable username : Participant -> string.
Variable is_closed : Participant -> bool.
Variable claimed_time : Participant -> option Z.
Variable resolve_unclaimed : Participant -> option string.
Variable from_username : string -> option Participant.

Record user := mk_user
  { ANON : bool; ADMIN : bool; user_participant : option Participant }.

(** What is raised instead of returning: a response with a status code, the
    response of [website.redirect], or the assertion of [canonicalize]. *)
Inductive raised :=
| Response (code : Z)
| Redirect (to : string)
| AssertionFailed
| TypeError.

(** [participant != user.participant] *)
Definition differs (p : Participant) (q : option Participant) : bool :=
  match q with
  | Some q => negb (participant_eqb p q)
  | None => true
  end.

Definition truthy_url (to : option string) : option string :=
  match to with
  | Some s => if Str.truthy s then Some s else None
  | None => None
  end.

Definition get_participant (u : user) (slug path_raw : string) (qs : mapping)
           (restrict resolve_unclaimed_flag : bool) : raised + Participant :=
  if restrict && ANON u then inl (Response 401)
  else
    match from_username slug with
    | None => inl (Response 404)
    | Some participant =>
        match canonicalize lower path_raw "/~/" (username participant) slug
                           (Some qs)
        with
        | redirect newpath => inl (Redirect newpath)
        | assertion_failed => inl AssertionFailed
        | type_error => inl TypeError
        | unchanged =>
            if is_closed participant then
              if ADMIN u then inr participant else inl (Response 410)
            else
              let after_unclaimed :=
                if restrict && differs participant (user_participant u)
                            && negb (ADMIN u)
                then inl (Response 403)
                else inr participant in
              match claimed_time participant, resolve_unclaimed_flag with
              | None, true =>
                  match truthy_url (resolve_unclaimed participant) with
                  | Some to => inl (Redirect to)
                  | None =>
                      if ADMIN u then inr participant
                      else inl (Response 404)
                  end
              | _, _ => after_unclaimed
              end
        end
    end.

End Participants.

Arguments ANON {Participant} u.
Arguments ADMIN {Participant} u.
Arguments user_participant {Participant} u.
Arguments differs {Participant} participant_eqb p q.
Arguments get_participant lower {Participant} participant_eqb username
  is_closed claimed_time resolve_unclaimed from_username u slug path_raw qs
  restrict resolve_unclaimed_flag.

End GetParticipant.

(** ** [is_valid_email_address] *)

Module Email.

(** The pieces [_email_re] is made of: one character of a class, one or
    more characters of a class, and [$], which holds at the end of the
    string and before a newline that ends it.  [re.match] starts at the
    first character, where [^] holds. *)
Inductive atom :=
| one (cls : ascii -> bool)
| plus (cls : ascii -> bool)
| dollar.

Definition newline : ascii := ascii_of_nat 10.

Definition at_end (s : string) : bool :=
  match s with
  | EmptyString => true
  | String c EmptyString => Ascii.eqb c newline
  | _ => false
  end.

(** Whether some way of matching the atoms in sequence succeeds on a prefix
    of [s]. *)
Fixpoint matches (re : list atom) : string -> bool :=
  match re with
  | [] => fun _ => true
  | one cls :: re' =>
      fun s =>
        match s with
        | String c rest => cls c && matches re' rest
        | EmptyString => false
        end
  | plus cls :: re' =>
      fix more (s : string) : bool :=
        match s with
        | String c rest => cls c && (more rest || matches re' rest)
        | EmptyString => false
        end
  | dollar :: re' => fun s => at_end s && matches re' s
  end.

Definition not_at (c : ascii) : bool := negb (Ascii.eqb c "@").

(** [^[^@]+@[^@]+\.[^@]+$] *)
Definition _email_re : list atom :=
  [plus not_at; one (fun c => Ascii.eqb c "@"); plus not_at;
   one (fun c => Ascii.eqb c "."); plus not_at; dollar].

(** The truth value of
    [len(email_address) < 255 and _email_re.match(email_address)]. *)
Definition is_valid_email_address (email_address : string) : bool :=
  (String.length email_address <? 255)%nat && matches _email_re email_address.

Fixpoint all_chars (cls : ascii -> bool) (s : string) : bool :=
  match s with
  | EmptyString => true
  | String c rest => cls c && all_chars cls rest
  end.

End Email.

(** * HTTP caching ([gratipay/utils/http_caching.py]) *)

Module HttpCaching.
  Import Str.

(** [s.endswith(suffix)] *)
Definition endswith (s suffix : string) : bool :=
  (String.length suffix <=? String.length s)%nat
  && (drop (String.length s - String.length suffix) s =? suffix)%string.

(** The module-level [ETAGS] dictionary. *)
Definition etags := list (string * string).

Fixpoint lookup (path : string) (d : etags) : option string :=
  match d with
  | [] => None
  | (k, v) :: rest => if (k =? path)%string then Some v else lookup path rest
  end.

Inductive IOError := cannot_open.

Section Files.

(** [b64encode(md5(content).digest(), '-_')], computed outside the
    source. *)
Variable b64_md5 : string -> string.

(** [asset_etag(path)], given the dictionary and what [open(path).read()]
    yields at the time of the call; the result comes with the dictionary
    as the call leaves it. *)
Definition asset_etag (read : string -> option string) (ETAGS : etags)
           (path : string) : etags * (IOError + string) :=
  if endswith path ".spt" then (ETAGS, inr EmptyString)
  else
    match lookup path ETAGS with
    | Some h => (ETAGS, inr h)
    | None =>
        match read path with
        | None => (ETAGS, inl cannot_open)
        | Some content =>
            let h := replace "=" "~" (b64_md5 content) in
            ((path, h) :: ETAGS, inr h)
        end
    end.

(** The dictionary after a sequence of calls, each made with what the
    files hold at its time. *)
Fixpoint after_calls (calls : list ((string -> option string) * string))
         (ETAGS : etags) : etags :=
  match calls with
  | [] => ETAGS
  | (read, path) :: rest =>
      after_calls rest (fst (asset_etag read ETAGS path))
  end.

End Files.

End HttpCaching.

(** * Properties *)

(** ** The queries on the sample snapshot *)

Module Examples.

Example sample_foo :
  Balances.foo sample
  = [("alice", 100); ("alice", -31); ("alice", -20); ("bob", -5); ("bob", 20)].
Proof. reflexivity. Qed.

Example sample_foo2 :
  Balances.foo2 sample = [("alice", 49); ("bob", 15)].
Proof. reflexivity. Qed.

Example sample_balances : Balances.query sample = [("bob", 15, 16)].
Proof. reflexivity. Qed.

Example sample_teams : TeamBalances.query sample = [("gratiteam", 5)].
Proof. reflexivity. Qed.

Example sample_tips : Tips.query sample = 1.
Proof. reflexivity. Qed.

Example sample_orphans : Orphans.query sample = ["bob"].
Proof. reflexivity. Qed.

Example sample_orphans_no_tips : Orphans.query_no_tips sample = ["bob"].
Proof. reflexivity. Qed.

Example sample_self_check :
  self_check sample
  = ([select_balances], inl (conflicting_balances [("bob", 15, 16)])).
Proof. reflexivity. Qed.

Example sample_self_check_repaired :
  self_check (mk_cursor (exchanges sample) (transfers sample) []
                        [mk_participant "alice" 49; mk_participant "bob" 20]
                        (teams sample) (paydays sample)
                        [mk_tip "alice" "bob" 1 3; mk_tip "alice" "bob" 2 4]
                        (current_tips sample)
                        [mk_elsewhere "alice"; mk_elsewhere "bob"] [])
  = ([select_balances; select_payday_running; select_team_balances;
      select_conflicting_tips; select_orphans; select_orphans_with_tips],
     inr tt).
Proof. reflexivity. Qed.

End Examples.

(** ** Grouping and summing *)

Module SqlFacts.
  Import Sql.

Lemma zsum_app (l1 l2 : list Z) : zsum (l1 ++ l2) = zsum l1 + zsum l2.
Proof.
  induction l1 as [|x l1 IH]; simpl; [reflexivity | rewrite IH; lia].
Qed.

Lemma zsum_map_add {A : Type} (f g : A -> Z) (l : list A) :
  zsum (map f l) + zsum (map g l) = zsum (map (fun x => f x + g x) l).
Proof.
  induction l as [|x l IH]; simpl; [reflexivity | rewrite <- IH; lia].
Qed.

Lemma zsum_map_ext {A : Type} (f g : A -> Z) (l : list A) :
  (forall x, f x = g x) -> zsum (map f l) = zsum (map g l).
Proof.
  intros H. f_equal. apply map_ext. exact H.
Qed.

Lemma sum_of_app (k : string) (l1 l2 : list (string * Z)) :
  sum_of k (l1 ++ l2) = sum_of k l1 + sum_of k l2.
Proof.
  unfold sum_of. rewrite filter_app, map_app. apply zsum_app.
Qed.

Lemma has_key_app (k : string) (l1 l2 : list (string * Z)) :
  has_key k (l1 ++ l2) = has_key k l1 || has_key k l2.
Proof.
  unfold has_key. apply existsb_app.
Qed.

Lemma has_key_In (k : string) (rows : list (string * Z)) :
  has_key k rows = true <-> In k (map fst rows).
Proof.
  unfold has_key. rewrite existsb_exists, in_map_iff. split.
  - intros [r [Hin Heq]]. apply String.eqb_eq in Heq. now exists r.
  - intros [r [Heq Hin]]. exists r. split; [assumption|].
    now apply String.eqb_eq.
Qed.

Lemma sum_of_no_key (k : string) (rows : list (string * Z)) :
  has_key k rows = false -> sum_of k rows = 0.
Proof.
  unfold has_key, sum_of. induction rows as [|r rows IH]; simpl.
  - reflexivity.
  - intros H. apply orb_false_iff in H as [Hr Hrest]. rewrite Hr. auto.
Qed.

(** A [select f, g from l where cond] grouped on [f]: the group of [k]
    sums [g] over the rows that pass [cond] and carry [k]. *)
Lemma sum_of_select {A : Type} (f : A -> string) (g : A -> Z)
      (cond : A -> bool) (k : string) (l : list A) :
  sum_of k (map (fun e => (f e, g e)) (filter cond l))
  = zsum (map (fun e => if cond e && (f e =? k)%string then g e else 0) l).
Proof.
  unfold sum_of. induction l as [|e l IH]; simpl; [reflexivity|].
  destruct (cond e); simpl.
  - destruct (f e =? k)%string; simpl; rewrite IH; reflexivity.
  - exact IH.
Qed.

Lemma has_key_select {A : Type} (f : A -> string) (g : A -> Z)
      (cond : A -> bool) (k : string) (l : list A) :
  has_key k (map (fun e => (f e, g e)) (filter cond l))
  = existsb (fun e => cond e && (f e =? k)%string) l.
Proof.
  unfold has_key. induction l as [|e l IH]; simpl; [reflexivity|].
  destruct (cond e); simpl; rewrite IH; reflexivity.
Qed.

Lemma filter_true {A : Type} (l : list A) : filter (fun _ => true) l = l.
Proof.
  induction l as [|x l IH]; simpl; [reflexivity | now rewrite IH].
Qed.

(** Rows built per key from a duplicate-free key list. *)
Lemma sum_of_per_key (g : string -> Z) (k : string) (ks : list string) :
  NoDup ks ->
  sum_of k (map (fun k' => (k', g k')) ks)
  = if in_dec string_dec k ks then g k else 0.
Proof.
  unfold sum_of. induction 1 as [|k' ks Hnotin Hnd IH]; simpl.
  - reflexivity.
  - destruct (String.eqb_spec k' k) as [->|Hne]; simpl.
    + rewrite IH. destruct (string_dec k k) as [_|Hkk]; [|contradiction].
      destruct (in_dec string_dec k ks); [contradiction | lia].
    + rewrite IH. destruct (string_dec k' k); [contradiction|].
      destruct (in_dec string_dec k ks); reflexivity.
Qed.

Lemma lookup_per_key (g : string -> Z) (k : string) (ks : list string) :
  lookup k (map (fun k' => (k', g k')) ks)
  = if in_dec string_dec k ks then Some (g k) else None.
Proof.
  unfold lookup. induction ks as [|k' ks IH]; simpl.
  - reflexivity.
  - destruct (String.eqb_spec k' k) as [->|Hne]; simpl.
    + destruct (string_dec k k); [reflexivity | contradiction].
    + rewrite IH. destruct (string_dec k' k); [contradiction|].
      destruct (in_dec string_dec k ks); reflexivity.
Qed.

Lemma keys_NoDup (rows : list (string * Z)) : NoDup (keys rows).
Proof. apply NoDup_nodup. Qed.

Lemma keys_In (k : string) (rows : list (string * Z)) :
  In k (keys rows) <-> has_key k rows = true.
Proof.
  unfold keys. rewrite nodup_In. symmetry. apply has_key_In.
Qed.

Lemma in_keys_dec (T : Type) (k : string) (rows : list (string * Z)) (a b : T) :
  (if in_dec string_dec k (keys rows) then a else b)
  = if has_key k rows then a else b.
Proof.
  destruct (in_dec string_dec k (keys rows)) as [Hin|Hnin].
  - apply keys_In in Hin. now rewrite Hin.
  - destruct (has_key k rows) eqn:Hk; [|reflexivity].
    apply keys_In in Hk. contradiction.
Qed.

(** Grouping keeps each group's sum and each key. *)
Lemma sum_of_group_sum (k : string) (rows : list (string * Z)) :
  sum_of k (group_sum rows) = sum_of k rows.
Proof.
  unfold group_sum. rewrite sum_of_per_key by apply keys_NoDup.
  rewrite in_keys_dec. destruct (has_key k rows) eqn:Hk; [reflexivity|].
  symmetry. now apply sum_of_no_key.
Qed.

Lemma lookup_group_sum (k : string) (rows : list (string * Z)) :
  lookup k (group_sum rows)
  = if has_key k rows then Some (sum_of k rows) else None.
Proof.
  unfold group_sum. rewrite lookup_per_key. apply in_keys_dec.
Qed.

Lemma has_key_group_sum (k : string) (rows : list (string * Z)) :
  has_key k (group_sum rows) = has_key k rows.
Proof.
  destruct (has_key k rows) eqn:Hk.
  - apply has_key_In. unfold group_sum. rewrite map_map. simpl.
    rewrite map_id. now apply keys_In.
  - destruct (has_key k (group_sum rows)) eqn:Hg; [|reflexivity].
    apply has_key_In in Hg. unfold group_sum in Hg.
    rewrite map_map in Hg. simpl in Hg. rewrite map_id in Hg.
    apply keys_In in Hg. congruence.
Qed.

(** A grouped relation has exactly one row per key: membership is lookup. *)
Lemma In_group_sum (k : string) (s : Z) (rows : list (string * Z)) :
  In (k, s) (group_sum rows) <-> lookup k (group_sum rows) = Some s.
Proof.
  rewrite lookup_group_sum. unfold group_sum. rewrite in_map_iff. split.
  - intros [k' [Heq Hin]]. inversion Heq; subst.
    apply keys_In in Hin. now rewrite Hin.
  - destruct (has_key k rows) eqn:Hk; [|discriminate].
    intros Heq. inversion Heq; subst. exists k. split; [reflexivity|].
    now apply keys_In.
Qed.

Lemma In_join {A B : Type} (on_ : A -> B -> bool) (a : list A) (b : list B)
      (x : A) (y : B) :
  In (x, y) (join on_ a b) <-> In x a /\ In y b /\ on_ x y = true.
Proof.
  unfold join. rewrite in_flat_map. split.
  - intros [x' [Hx Hin]]. apply in_map_iff in Hin as [y' [Heq Hy]].
    inversion Heq; subst. apply filter_In in Hy as [Hy Hon]. auto.
  - intros [Hx [Hy Hon]]. exists x. split; [assumption|].
    apply in_map_iff. exists y. split; [reflexivity|].
    apply filter_In. auto.
Qed.

End SqlFacts.

(** ** The balance query computes the signed sum of the ledger *)

Module BalanceFacts.
  Import Sql SqlFacts Balances Ledger.

Lemma sum_of_map {A : Type} (f : A -> string) (g : A -> Z)
      (k : string) (l : list A) :
  sum_of k (map (fun e => (f e, g e)) l)
  = zsum (map (fun e => if (f e =? k)%string then g e else 0) l).
Proof.
  rewrite <- (filter_true l) at 1. rewrite sum_of_select. reflexivity.
Qed.

Lemma has_key_map {A : Type} (f : A -> string) (g : A -> Z)
      (k : string) (l : list A) :
  has_key k (map (fun e => (f e, g e)) l)
  = existsb (fun e => (f e =? k)%string) l.
Proof.
  rewrite <- (filter_true l) at 1. rewrite has_key_select. reflexivity.
Qed.

Lemma existsb_orb {A : Type} (f g : A -> bool) (l : list A) :
  existsb f l || existsb g l = existsb (fun x => f x || g x) l.
Proof.
  induction l as [|x l IH]; simpl; [reflexivity|].
  rewrite <- IH. destruct (f x), (g x), (existsb f l), (existsb g l);
    reflexivity.
Qed.

Lemma existsb_ext {A : Type} (f g : A -> bool) (l : list A) :
  (forall x, f x = g x) -> existsb f l = existsb g l.
Proof.
  intros H. induction l as [|x l IH]; simpl; [reflexivity|].
  now rewrite H, IH.
Qed.

(** ['unknown'] is not ['failed']: the first disjunct of the debit filter
    is absorbed by the second. *)
Lemma debit_status (s : string) :
  (s =? "unknown")%string || negb (s =? "failed")%string
  = negb (s =? "failed")%string.
Proof.
  destruct (String.eqb_spec s "unknown") as [->|_]; reflexivity.
Qed.

Lemma credit_filter_spec (e : exchange) :
  credit_filter e
  = (0 <? x_amount e)
    && ((x_status e =? "succeeded")%string || (x_status e =? "unknown")%string).
Proof.
  unfold credit_filter. rewrite Z.gtb_ltb. f_equal. apply orb_comm.
Qed.

Lemma debit_filter_spec (e : exchange) :
  debit_filter e = (x_amount e <? 0) && negb (x_status e =? "failed")%string.
Proof.
  unfold debit_filter. now rewrite debit_status.
Qed.

Lemma credit_debit_exclusive (e : exchange) :
  credit_filter e = true -> debit_filter e = false.
Proof.
  rewrite credit_filter_spec, debit_filter_spec. intros H.
  apply andb_true_iff in H as [H _]. apply Z.ltb_lt in H.
  destruct (Z.ltb_spec (x_amount e) 0); [lia | reflexivity].
Qed.

Lemma counted_spec (e : exchange) :
  counted e = credit_filter e || debit_filter e.
Proof.
  now rewrite credit_filter_spec, debit_filter_spec.
Qed.

Lemma exchange_contribution_spec (e : exchange) :
  exchange_contribution e
  = (if credit_filter e then x_amount e else 0)
    + (if debit_filter e then x_amount e - x_fee e else 0).
Proof.
  unfold exchange_contribution.
  rewrite <- credit_filter_spec, <- debit_filter_spec.
  destruct (credit_filter e) eqn:Hc.
  - rewrite (credit_debit_exclusive e Hc). lia.
  - destruct (debit_filter e); lia.
Qed.

Lemma exchange_streams (u : string) (l : list exchange) :
  zsum (map (fun e => if credit_filter e && (x_participant e =? u)%string
                      then x_amount e else 0) l)
  + zsum (map (fun e => if debit_filter e && (x_participant e =? u)%string
                        then x_amount e - x_fee e else 0) l)
  = zsum (map (fun e => if (x_participant e =? u)%string
                        then exchange_contribution e else 0) l).
Proof.
  rewrite zsum_map_add. apply zsum_map_ext. intros e.
  rewrite exchange_contribution_spec.
  destruct (x_participant e =? u)%string, (credit_filter e), (debit_filter e);
    simpl; lia.
Qed.

Lemma transfer_streams (u : string) (l : list transfer) :
  zsum (map (fun t => if (t_tipper t =? u)%string then - t_amount t else 0) l)
  + zsum (map (fun t => if (t_tippee t =? u)%string then t_amount t else 0) l)
  = zsum (map (transfer_contribution u) l).
Proof.
  rewrite zsum_map_add. reflexivity.
Qed.

Lemma payment_streams (u : string) (l : list payment) :
  zsum (map (fun p => if to_participant p && (pay_participant p =? u)%string
                      then pay_amount p else 0) l)
  + zsum (map (fun p => if to_team p && (pay_participant p =? u)%string
                        then - pay_amount p else 0) l)
  = zsum (map (fun p => if (pay_participant p =? u)%string
                        then payment_contribution p else 0) l).
Proof.
  rewrite zsum_map_add. apply zsum_map_ext. intros p.
  unfold payment_contribution, to_participant, to_team.
  destruct (pay_participant p =? u)%string.
  - destruct (String.eqb_spec (pay_direction p) "to-participant") as [->|_];
      simpl; [lia|].
    destruct (pay_direction p =? "to-team")%string; simpl; lia.
  - rewrite !andb_false_r. lia.
Qed.

(** [foo] holds, for every identity, exactly its signed contributions. *)
Lemma sum_of_foo (c : cursor) (u : string) :
  sum_of u (foo c) = signed_sum c u.
Proof.
  unfold foo, exchanges_credit, exchanges_debit, transfers_out, payments_in,
    payments_out, transfers_in, signed_sum.
  rewrite !sum_of_app, !sum_of_group_sum, !sum_of_select, !sum_of_map.
  rewrite <- exchange_streams, <- transfer_streams, <- payment_streams.
  lia.
Qed.

Lemma has_key_foo (c : cursor) (u : string) :
  has_key u (foo c) = has_events c u.
Proof.
  unfold foo, exchanges_credit, exchanges_debit, transfers_out, payments_in,
    payments_out, transfers_in, has_events.
  rewrite !has_key_app, !has_key_group_sum, !has_key_select, !has_key_map.
  rewrite <- (existsb_orb (fun t => (t_tipper t =? u)%string)
                          (fun t => (t_tippee t =? u)%string)).
  rewrite (existsb_ext
             (fun e => (x_participant e =? u)%string && counted e)
             (fun e => credit_filter e && (x_participant e =? u)%string
                       || debit_filter e && (x_participant e =? u)%string)).
  2:{ intros e. rewrite counted_spec.
      destruct (x_participant e =? u)%string, (credit_filter e),
        (debit_filter e); reflexivity. }
  rewrite (existsb_ext
             (fun p => (pay_participant p =? u)%string && directed p)
             (fun p => to_participant p && (pay_participant p =? u)%string
                       || to_team p && (pay_participant p =? u)%string)).
  2:{ intros p. unfold directed, to_participant, to_team.
      destruct (pay_participant p =? u)%string,
        (pay_direction p =? "to-participant")%string,
        (pay_direction p =? "to-team")%string; reflexivity. }
  rewrite <- !existsb_orb.
  repeat match goal with
         | |- context [existsb ?f ?l] => destruct (existsb f l)
         end; reflexivity.
Qed.

(** The expected balance is the signed sum, for the identities that occur in
    some stream, and is missing for the others. *)
Lemma expected_spec (c : cursor) (u : string) :
  expected c u = if has_events c u then Some (signed_sum c u) else None.
Proof.
  unfold expected, foo2.
  rewrite lookup_group_sum, has_key_foo, sum_of_foo. reflexivity.
Qed.

(** The rows of the balance query. *)
Lemma In_query (c : cursor) (u : string) (e a : Z) :
  In (u, e, a) (query c)
  <-> (exists p, In p (participants c) /\ p_username p = u /\ p_balance p = a)
      /\ expected c u = Some e /\ e <> a.
Proof.
  unfold query, expected. rewrite in_map_iff. split.
  - intros [[[k s] p] [Heq Hin]]. simpl in Heq. inversion Heq; subst.
    apply filter_In in Hin as [Hin Hne]. simpl in Hne.
    apply In_join in Hin as [Hfoo [Hp Hon]]. simpl in Hon.
    apply String.eqb_eq in Hon. rewrite Hon.
    split; [exists p; auto|]. split.
    + now apply In_group_sum.
    + apply negb_true_iff, Z.eqb_neq in Hne. exact Hne.
  - intros [[p [Hp [Hu Ha]]] [Hexp Hne]]. subst.
    exists (p_username p, e, p). split; [reflexivity|].
    apply filter_In. simpl. split.
    + apply In_join. simpl. split; [now apply In_group_sum|].
      split; [assumption | apply String.eqb_refl].
    + apply negb_true_iff, Z.eqb_neq. exact Hne.
Qed.

End BalanceFacts.

(** ** What each check executes and returns *)

Module RunFacts.

Lemma run_check_balances (c : cursor) (log : list statement) :
  _check_balances c log
  = (log ++ [select_balances],
     if is_empty (Balances.query c) then inr tt
     else inl (conflicting_balances (Balances.query c))).
Proof. reflexivity. Qed.

Lemma run_check_no_team_balances (c : cursor) (log : list statement) :
  _check_no_team_balances c log
  = if TeamBalances.running c
    then (log ++ [select_payday_running], inr tt)
    else ((log ++ [select_payday_running]) ++ [select_team_balances],
          if is_empty (TeamBalances.query c) then inr tt
          else inl (teams_with_nonzero_balance (TeamBalances.query c))).
Proof.
  unfold _check_no_team_balances, bind, execute, assert, ret.
  destruct (TeamBalances.running c); reflexivity.
Qed.

Lemma run_check_tips (c : cursor) (log : list statement) :
  _check_tips c log
  = (log ++ [select_conflicting_tips],
     if Tips.query c =? 0 then inr tt else inl conflicting_tips_nonzero).
Proof. reflexivity. Qed.

Lemma run_check_orphans (c : cursor) (log : list statement) :
  _check_orphans c log
  = (log ++ [select_orphans],
     if is_empty (Orphans.query c) then inr tt
     else inl (missing_elsewheres (Orphans.query c))).
Proof. reflexivity. Qed.

Lemma run_check_orphans_no_tips (c : cursor) (log : list statement) :
  _check_orphans_no_tips c log
  = (log ++ [select_orphans_with_tips],
     if is_empty (Orphans.query_no_tips c) then inr tt
     else inl (orphans_with_tips (Orphans.query_no_tips c))).
Proof. reflexivity. Qed.

Lemma is_empty_nil {A : Type} (l : list A) : is_empty l = true <-> l = [].
Proof. destruct l; simpl; split; congruence. Qed.

Lemma no_member_nil {A : Type} (l : list A) :
  (forall x, ~ In x l) -> l = [].
Proof.
  destruct l as [|x l]; [reflexivity|].
  intros H. exfalso. apply (H x). now left.
Qed.

End RunFacts.

(** ** Balance reconciliation *)

Module BalanceClaims.
  Import Sql SqlFacts Balances Ledger BalanceFacts.

(** What the balance query reports.  For every participant row, the query
    emits the mismatch row [(username, e, balance)] if and only if the
    identity occurs in at least one of the contribution streams, [e] is its
    signed sum and [e] differs from the stored balance.  The inner join
    leaves out every identity without events: such a participant is never
    reported, whatever its stored balance. *)
Theorem C1_mismatch_iff_has_events_and_differs
        (c : cursor) (p : participant) :
  In p (participants c) ->
  (forall e : Z,
      In (p_username p, e, p_balance p) (query c)
      <-> has_events c (p_username p) = true
          /\ e = signed_sum c (p_username p)
          /\ e <> p_balance p)
  /\ (has_events c (p_username p) = false ->
      forall e a : Z, ~ In (p_username p, e, a) (query c)).
Proof.
  intros Hp. split.
  - intros e. rewrite In_query, expected_spec. split.
    + intros [_ [Hexp Hne]].
      destruct (has_events c (p_username p)); [|discriminate].
      inversion Hexp; subst. auto.
    + intros [Hev [He Hne]]. rewrite Hev. subst e.
      split; [exists p; auto|]. auto.
  - intros Hev e a Hin. apply In_query in Hin as [_ [Hexp _]].
    rewrite expected_spec, Hev in Hexp. discriminate.
Qed.

(** A participant whose stored balance is 5 while its only event is a
    succeeded exchange of 10. *)
Lemma C1_mismatch_witness :
  let p := mk_participant "alice" 5 in
  let c := mk_cursor [mk_exchange "alice" 10 1 "succeeded"] [] [] [p]
                     [] [] [] [] [] [] in
  In p (participants c) /\ In ("alice", 10, 5) (query c).
Proof.
  intros p c.
  assert (Hp : In p (participants c)) by (left; reflexivity).
  split; [exact Hp|].
  apply (proj1 (C1_mismatch_iff_has_events_and_differs c p Hp) 10).
  repeat split. discriminate.
Defined.

(** The reconciler of section 4.2 is not what the query computes: a stored
    balance of 5 with no event at all differs from the expected balance
    taken as 0, and no row is emitted. *)
Lemma C1_no_events_not_reported :
  ~ (forall (c : cursor) (p : participant),
        In p (participants c) ->
        ((exists e, In (p_username p, e, p_balance p) (query c))
         <-> expected_or_zero c (p_username p) <> p_balance p)).
Proof.
  intros H.
  pose (p := mk_participant "alice" 5).
  pose (c := mk_cursor [] [] [] [p] [] [] [] [] [] []).
  destruct (H c p (or_introl eq_refl)) as [_ Hrep].
  destruct Hrep as [e Hin]; [discriminate | exact Hin].
Qed.

(** C1 (the code at the failing input).  Participant alice stores a
    balance of 5 and has no event in any of the three sources.  The
    expected balance, taken as 0, differs from the stored one, so the
    reconciler has a mismatch to report and the docstring promises a
    recalculation for all participants; yet the inner join gives the query
    no row for alice, and [_check_balances] asserts on an empty answer and
    passes. *)
Theorem C1_no_events_mismatch_passes :
  let p := mk_participant "alice" 5 in
  let c := mk_cursor [] [] [] [p] [] [] [] [] [mk_elsewhere "alice"] [] in
  In p (participants c)
  /\ has_events c (p_username p) = false
  /\ expected_or_zero c (p_username p) = 0
  /\ expected_or_zero c (p_username p) <> p_balance p
  /\ query c = []
  /\ _check_balances c [] = ([select_balances], inr tt)
  /\ snd (self_check c) = inr tt.
Proof.
  intros p c. repeat split.
  - now left.
  - discriminate.
Qed.

(** The check as a whole: [_check_balances] passes if and only if every
    participant that occurs in some contribution stream stores exactly its
    signed sum. *)
Lemma check_balances_passes_iff (c : cursor) (log : list statement) :
  snd (_check_balances c log) = inr tt
  <-> forall p, In p (participants c) ->
                has_events c (p_username p) = true ->
                p_balance p = signed_sum c (p_username p).
Proof.
  rewrite RunFacts.run_check_balances. simpl. split.
  - intros Hok p Hp Hev.
    destruct (Z.eq_dec (p_balance p) (signed_sum c (p_username p)))
      as [Heq|Hne]; [exact Heq|].
    assert (Hin : In (p_username p, signed_sum c (p_username p), p_balance p)
                     (query c)).
    { apply In_query. rewrite expected_spec, Hev.
      split; [exists p; auto|]. split; [reflexivity | congruence]. }
    destruct (query c); [destruct Hin | discriminate].
  - intros Hall.
    assert (Hq : query c = []).
    { apply RunFacts.no_member_nil. intros [[u e] a] Hin.
      apply In_query in Hin as [[p [Hp [Hu Ha]]] [Hexp Hne]].
      rewrite expected_spec in Hexp.
      destruct (has_events c u) eqn:Hev; [|discriminate].
      inversion Hexp; subst. apply Hne. symmetry. now apply Hall. }
    now rewrite Hq.
Qed.

End BalanceClaims.

(** ** Adding one exchange to the log *)

Module ExchangeClaims.
  Import Sql SqlFacts Balances Ledger BalanceFacts.

Lemma with_exchanges_same (c : cursor) : with_exchanges c (exchanges c) = c.
Proof. destruct c; reflexivity. Qed.

Lemma signed_sum_add_exchange (c : cursor) (before after : list exchange)
      (e : exchange) (u : string) :
  signed_sum (with_exchanges c (before ++ e :: after)) u
  = signed_sum (with_exchanges c (before ++ after)) u
    + (if (x_participant e =? u)%string then exchange_contribution e else 0).
Proof.
  unfold signed_sum. simpl. rewrite !map_app, !zsum_app. simpl. lia.
Qed.

Lemma has_events_add_exchange (c : cursor) (before after : list exchange)
      (e : exchange) (u : string) :
  has_events (with_exchanges c (before ++ e :: after)) u
  = has_events (with_exchanges c (before ++ after)) u
    || ((x_participant e =? u)%string && counted e).
Proof.
  unfold has_events. simpl. rewrite !existsb_app. simpl.
  destruct ((x_participant e =? u)%string && counted e);
    repeat match goal with
           | |- context [existsb ?f ?l] => destruct (existsb f l)
           end; reflexivity.
Qed.

Lemma debit_contribution (e : exchange) :
  x_amount e < 0 ->
  exchange_contribution e
  = (if (x_status e =? "failed")%string then 0 else x_amount e - x_fee e)
  /\ counted e = negb (x_status e =? "failed")%string.
Proof.
  intros Hneg. unfold exchange_contribution, counted.
  destruct (Z.ltb_spec 0 (x_amount e)); [lia|].
  destruct (Z.ltb_spec (x_amount e) 0); [|lia]. simpl.
  destruct (x_status e =? "failed")%string; auto.
Qed.

(** C6.  Adding an exchange with [amount < 0] to the log adds
    [amount - fee] to its participant's expected balance exactly when its
    status is not ['failed'], whatever else the status is; with status
    ['failed'] it changes no expected balance.  Other participants are not
    affected in either case. *)
Theorem C6_negative_exchange_counts_unless_failed
        (c : cursor) (before after : list exchange) (e : exchange) :
  exchanges c = before ++ after ->
  x_amount e < 0 ->
  let c' := with_exchanges c (before ++ e :: after) in
  (x_status e <> "failed" ->
   expected c' (x_participant e)
   = Some (match expected c (x_participant e) with
           | Some s => s
           | None => 0
           end + (x_amount e - x_fee e)))
  /\ (x_status e = "failed" -> forall u, expected c' u = expected c u)
  /\ (forall u, u <> x_participant e -> expected c' u = expected c u).
Proof.
  intros Hex Hneg c'. subst c'.
  destruct (debit_contribution e Hneg) as [Hcontrib Hcounted].
  assert (Hc : with_exchanges c (before ++ after) = c)
    by (rewrite <- Hex; apply with_exchanges_same).
  repeat split.
  - intros Hst. apply String.eqb_neq in Hst.
    rewrite !expected_spec, has_events_add_exchange, signed_sum_add_exchange.
    rewrite Hc, Hcontrib, Hcounted, Hst, String.eqb_refl. simpl.
    rewrite orb_true_r. destruct (has_events c (x_participant e)) eqn:Hev.
    + reflexivity.
    + f_equal.
      assert (Hz : signed_sum c (x_participant e) = 0).
      { rewrite <- sum_of_foo. apply sum_of_no_key. rewrite has_key_foo.
        assumption. }
      lia.
  - intros Hst u. apply String.eqb_eq in Hst.
    rewrite !expected_spec, has_events_add_exchange, signed_sum_add_exchange.
    rewrite Hc, Hcontrib, Hcounted, Hst. simpl.
    rewrite andb_false_r, orb_false_r.
    destruct (x_participant e =? u)%string; now rewrite Z.add_0_r.
  - intros u Hu.
    rewrite !expected_spec, has_events_add_exchange, signed_sum_add_exchange.
    rewrite Hc.
    destruct (String.eqb_spec (x_participant e) u) as [Heq|_];
      [congruence|].
    simpl. now rewrite orb_false_r, Z.add_0_r.
Qed.

(** A pending payout of 30 with a fee of 2 on top of a deposit of 100. *)
Lemma C6_negative_exchange_witness :
  let c := with_exchanges empty_cursor [mk_exchange "alice" 100 0 "succeeded"] in
  let e := mk_exchange "alice" (-30) 2 "pending" in
  expected (with_exchanges c ([mk_exchange "alice" 100 0 "succeeded"] ++ e :: []))
           "alice"
  = Some (100 + (-30 - 2)).
Proof.
  intros c e.
  refine (proj1 (C6_negative_exchange_counts_unless_failed
                   c [mk_exchange "alice" 100 0 "succeeded"] [] e
                   eq_refl eq_refl) _).
  discriminate.
Defined.

Lemma filter_insert_rejected {A : Type} (cond : A -> bool)
      (before after : list A) (e : A) :
  cond e = false ->
  filter cond (before ++ e :: after) = filter cond (before ++ after).
Proof.
  intros H. rewrite !filter_app. simpl. now rewrite H.
Qed.

Lemma zero_amount_rejected (e : exchange) :
  x_amount e = 0 -> credit_filter e = false /\ debit_filter e = false.
Proof.
  intros H. unfold credit_filter, debit_filter. now rewrite H.
Qed.

(** C9.  Adding an exchange whose amount is exactly 0, with any status and
    anywhere in the log, changes neither the expected balances nor the
    rows of the balance query nor the outcome of any check. *)
Theorem C9_zero_amount_exchange_is_ignored
        (c : cursor) (before after : list exchange) (e : exchange) :
  exchanges c = before ++ after ->
  x_amount e = 0 ->
  let c' := with_exchanges c (before ++ e :: after) in
  foo2 c' = foo2 c
  /\ (forall u, expected c' u = expected c u)
  /\ query c' = query c
  /\ _check_balances c' = _check_balances c
  /\ check_db c' = check_db c.
Proof.
  intros Hex Hz c'.
  destruct (zero_amount_rejected e Hz) as [Hcr Hdb].
  assert (Hfoo : foo c' = foo c).
  { unfold foo, exchanges_credit, exchanges_debit. subst c'. simpl.
    rewrite (filter_insert_rejected _ _ _ _ Hcr),
      (filter_insert_rejected _ _ _ _ Hdb), <- Hex.
    reflexivity. }
  assert (Hfoo2 : foo2 c' = foo2 c) by (unfold foo2; now rewrite Hfoo).
  assert (Hq : query c' = query c).
  { unfold query. rewrite Hfoo2. reflexivity. }
  assert (Hb : _check_balances c' = _check_balances c).
  { unfold _check_balances. now rewrite Hq. }
  repeat split; try assumption.
  - intros u. unfold expected. now rewrite Hfoo2.
  - unfold check_db. rewrite Hb. reflexivity.
Qed.

(** A failed zero-amount exchange put in front of a deposit. *)
Lemma C9_zero_amount_witness :
  let c := with_exchanges empty_cursor [mk_exchange "alice" 100 0 "succeeded"] in
  foo2 (with_exchanges c ([] ++ mk_exchange "bob" 0 3 "failed"
                             :: [mk_exchange "alice" 100 0 "succeeded"]))
  = foo2 c.
Proof.
  intros c.
  exact (proj1 (C9_zero_amount_exchange_is_ignored
                  c [] [mk_exchange "alice" 100 0 "succeeded"]
                  (mk_exchange "bob" 0 3 "failed") eq_refl eq_refl)).
Defined.

End ExchangeClaims.

(** ** The end-to-end scenario *)

Module Scenario.
  Import Sql SqlFacts Balances Ledger BalanceFacts RunFacts.

Lemma zsum_map_support {A : Type} (f : A -> bool) (g : A -> Z) (l : list A) :
  (forall x, f x = false -> g x = 0) ->
  zsum (map g l) = zsum (map g (filter f l)).
Proof.
  intros H. induction l as [|x l IH]; simpl; [reflexivity|].
  destruct (f x) eqn:Hf; simpl; rewrite IH; [reflexivity|].
  rewrite (H x Hf). reflexivity.
Qed.

Lemma signed_sum_by_party (c : cursor) (u : string) :
  signed_sum c u
  = zsum (map exchange_contribution
              (filter (fun e => (x_participant e =? u)%string) (exchanges c)))
    + zsum (map (transfer_contribution u)
                (filter (fun t => (t_tipper t =? u)%string
                                  || (t_tippee t =? u)%string) (transfers c)))
    + zsum (map payment_contribution
                (filter (fun p => (pay_participant p =? u)%string)
                        (payments c))).
Proof.
  unfold signed_sum. f_equal; [f_equal|].
  - induction (exchanges c) as [|e l IH]; simpl; [reflexivity|].
    destruct (x_participant e =? u)%string; simpl; now rewrite IH.
  - apply zsum_map_support. intros t Ht. unfold transfer_contribution.
    apply orb_false_iff in Ht as [-> ->]. reflexivity.
  - induction (payments c) as [|p l IH]; simpl; [reflexivity|].
    destruct (pay_participant p =? u)%string; simpl; now rewrite IH.
Qed.

(** C7.  In any snapshot where P's only exchange is +500 succeeded, the
    only transfer P is a party of is 50 with P as tipper (to somebody
    else), and P's only payment is 20 to-participant, the expected balance
    of P is exactly 470.  With 470 stored for P no row is reported for P
    (and the check passes when P is the only participant); with 450 stored
    the row (P, 470, 450) is reported and the check raises with it. *)
Theorem C7_scenario_expected_470
        (c : cursor) (P Q T : string) (fee : Z) :
  Q <> P ->
  filter (fun e => (x_participant e =? P)%string) (exchanges c)
  = [mk_exchange P 500 fee "succeeded"] ->
  filter (fun t => (t_tipper t =? P)%string || (t_tippee t =? P)%string)
         (transfers c)
  = [mk_transfer P Q 50] ->
  filter (fun p => (pay_participant p =? P)%string) (payments c)
  = [mk_payment P T 20 "to-participant"] ->
  expected c P = Some 470
  /\ ((forall p, In p (participants c) -> p_username p = P ->
                 p_balance p = 470) ->
      forall e a, ~ In (P, e, a) (query c))
  /\ (participants c = [mk_participant P 470] ->
      forall log, _check_balances c log = (log ++ [select_balances], inr tt))
  /\ (In (mk_participant P 450) (participants c) ->
      In (P, 470, 450) (query c)
      /\ forall log, exists b,
          _check_balances c log
          = (log ++ [select_balances], inl (conflicting_balances b))
          /\ In (P, 470, 450) b).
Proof.
  intros HQ Hx Ht Hp.
  assert (Hexp : expected c P = Some 470).
  { rewrite expected_spec.
    assert (Hev : has_events c P = true).
    { unfold has_events. apply orb_true_iff. left. apply orb_true_iff. left.
      apply existsb_exists. exists (mk_exchange P 500 fee "succeeded").
      split.
      - assert (Hin : In (mk_exchange P 500 fee "succeeded")
                         (filter (fun e => (x_participant e =? P)%string)
                                 (exchanges c)))
          by (rewrite Hx; now left).
        apply filter_In in Hin. tauto.
      - simpl. rewrite String.eqb_refl. reflexivity. }
    rewrite Hev, signed_sum_by_party, Hx, Ht, Hp. f_equal.
    unfold transfer_contribution. simpl.
    rewrite String.eqb_refl. apply String.eqb_neq in HQ. rewrite HQ.
    reflexivity. }
  assert (Hnone : (forall p, In p (participants c) -> p_username p = P ->
                             p_balance p = 470) ->
                  forall e a, ~ In (P, e, a) (query c)).
  { intros Hstored e a Hin.
    apply In_query in Hin as [[p [Hin [Hu Ha]]] [He Hne]].
    rewrite Hexp in He. inversion He; subst e.
    apply Hne. rewrite <- Ha. symmetry. now apply Hstored. }
  split; [exact Hexp|]. split; [exact Hnone|]. split.
  - intros Hparts log. rewrite run_check_balances.
    assert (Hq : query c = []).
    { apply no_member_nil. intros [[u e] a] Hin.
      assert (Hu : u = P).
      { apply In_query in Hin as [[p [Hin [Hu _]]] _].
        rewrite Hparts in Hin. destruct Hin as [<-|[]]. now rewrite <- Hu. }
      subst u. revert Hin. apply Hnone. intros p Hin _.
      rewrite Hparts in Hin. destruct Hin as [<-|[]]. reflexivity. }
    rewrite Hq. reflexivity.
  - intros Hin.
    assert (Hrow : In (P, 470, 450) (query c)).
    { apply In_query. split; [|split; [exact Hexp | discriminate]].
      exists (mk_participant P 450). auto. }
    split; [exact Hrow|]. intros log. exists (query c).
    rewrite run_check_balances. split; [|exact Hrow].
    destruct (query c); [destruct Hrow | reflexivity].
Qed.

(** The scenario alone in the database, with 450 stored for P. *)
Lemma C7_scenario_witness :
  let c := mk_cursor [mk_exchange "P" 500 3 "succeeded"]
                     [mk_transfer "P" "Q" 50]
                     [mk_payment "P" "T" 20 "to-participant"]
                     [mk_participant "P" 450] [] [] [] [] [] [] in
  expected c "P" = Some 470
  /\ In ("P", 470, 450) (query c)
  /\ _check_balances c []
     = ([select_balances], inl (conflicting_balances [("P", 470, 450)])).
Proof.
  intros c.
  assert (HQ : "Q" <> "P") by discriminate.
  pose proof (C7_scenario_expected_470 c "P" "Q" "T" 3 HQ
                eq_refl eq_refl eq_refl) as H.
  split; [exact (proj1 H)|].
  split; [|reflexivity].
  exact (proj1 (proj2 (proj2 (proj2 H)) (or_introl eq_refl))).
Defined.

End Scenario.

(** ** The audit runner *)

Module RunnerClaims.
  Import RunFacts.

(** C2 (as the code has it).  [check_db] runs the five checks in order on
    the one cursor and stops at the first check whose assertion fails: it
    raises that check's error and executes none of the later checks.  It
    returns normally if and only if no check finds a violation, the team
    check counting as passed while a payday is running. *)
Theorem C2_check_db_stops_at_first_failure
        (c : cursor) (log : list statement) :
  (snd (check_db c log) = inr tt
   <-> Balances.query c = []
       /\ (TeamBalances.running c = true \/ TeamBalances.query c = [])
       /\ Tips.query c = 0
       /\ Orphans.query c = []
       /\ Orphans.query_no_tips c = [])
  /\ (Balances.query c <> [] ->
      check_db c log
      = (log ++ [select_balances],
         inl (conflicting_balances (Balances.query c))))
  /\ (forall err l1,
         _check_balances c log = (l1, inl err) ->
         check_db c log = (l1, inl err))
  /\ (forall err l1 l2,
         _check_balances c log = (l1, inr tt) ->
         _check_no_team_balances c l1 = (l2, inl err) ->
         check_db c log = (l2, inl err))
  /\ (forall err l1 l2 l3,
         _check_balances c log = (l1, inr tt) ->
         _check_no_team_balances c l1 = (l2, inr tt) ->
         _check_tips c l2 = (l3, inl err) ->
         check_db c log = (l3, inl err))
  /\ (forall err l1 l2 l3 l4,
         _check_balances c log = (l1, inr tt) ->
         _check_no_team_balances c l1 = (l2, inr tt) ->
         _check_tips c l2 = (l3, inr tt) ->
         _check_orphans c l3 = (l4, inl err) ->
         check_db c log = (l4, inl err))
  /\ (forall l1 l2 l3 l4,
         _check_balances c log = (l1, inr tt) ->
         _check_no_team_balances c l1 = (l2, inr tt) ->
         _check_tips c l2 = (l3, inr tt) ->
         _check_orphans c l3 = (l4, inr tt) ->
         check_db c log = _check_orphans_no_tips c l4).
Proof.
  split; [|split; [|repeat split]].
  - unfold check_db, bind.
    rewrite run_check_balances, <- (is_empty_nil (Balances.query c)).
    destruct (is_empty (Balances.query c));
      [|simpl; split; [discriminate | intros [H _]; discriminate]].
    rewrite run_check_no_team_balances,
      <- (is_empty_nil (TeamBalances.query c)).
    rewrite <- (is_empty_nil (Orphans.query c)),
      <- (is_empty_nil (Orphans.query_no_tips c)), <- Z.eqb_eq.
    destruct (TeamBalances.running c).
    + rewrite run_check_tips.
      destruct (Tips.query c =? 0); [|simpl; intuition discriminate].
      rewrite run_check_orphans.
      destruct (is_empty (Orphans.query c));
        [|simpl; intuition discriminate].
      rewrite run_check_orphans_no_tips.
      destruct (is_empty (Orphans.query_no_tips c));
        simpl; intuition discriminate.
    + destruct (is_empty (TeamBalances.query c));
        [|simpl; intuition discriminate].
      rewrite run_check_tips.
      destruct (Tips.query c =? 0); [|simpl; intuition discriminate].
      rewrite run_check_orphans.
      destruct (is_empty (Orphans.query c));
        [|simpl; intuition discriminate].
      rewrite run_check_orphans_no_tips.
      destruct (is_empty (Orphans.query_no_tips c));
        simpl; intuition discriminate.
  - intros Hne. unfold check_db, bind. rewrite run_check_balances.
    destruct (Balances.query c); [contradiction | reflexivity].
  - intros err l1 H1. unfold check_db, bind. now rewrite H1.
  - intros err l1 l2 H1 H2. unfold check_db, bind. now rewrite H1, H2.
  - intros err l1 l2 l3 H1 H2 H3. unfold check_db, bind.
    now rewrite H1, H2, H3.
  - intros err l1 l2 l3 l4 H1 H2 H3 H4. unfold check_db, bind.
    now rewrite H1, H2, H3, H4.
  - intros l1 l2 l3 l4 H1 H2 H3 H4. unfold check_db, bind.
    rewrite H1, H2, H3, H4. destruct (_check_orphans_no_tips c l4) as [l5 [e|[]]];
      reflexivity.
Qed.

(** A snapshot with a conflicting balance, an orphan and a duplicate tip. *)
Lemma C2_first_failure_witness :
  let c := mk_cursor [mk_exchange "alice" 10 0 "succeeded"] [] []
                     [mk_participant "alice" 5] [] []
                     [mk_tip "alice" "bob" 7 1; mk_tip "alice" "bob" 7 2]
                     [] [] [] in
  check_db c []
  = ([select_balances], inl (conflicting_balances [("alice", 10, 5)])).
Proof.
  intros c.
  refine (proj1 (proj2 (C2_check_db_stops_at_first_failure c [])) _).
  discriminate.
Defined.

(** C2 as stated fails: on a snapshot whose balances, tips and orphan
    checks would all fail, only the balance statement is executed and only
    the conflicting balance is raised. *)
Lemma C2_later_checks_not_run :
  let c := mk_cursor [mk_exchange "alice" 10 0 "succeeded"] [] []
                     [mk_participant "alice" 5] [] []
                     [mk_tip "alice" "bob" 7 1; mk_tip "alice" "bob" 7 2]
                     [] [] [] in
  Tips.query c = 1
  /\ Orphans.query c = ["alice"]
  /\ self_check c
     = ([select_balances], inl (conflicting_balances [("alice", 10, 5)]))
  /\ ~ In select_conflicting_tips (fst (self_check c))
  /\ ~ In select_orphans (fst (self_check c)).
Proof.
  intros c. repeat split.
  - intros [H|[]]. discriminate.
  - intros [H|[]]. discriminate.
Qed.

Lemma running_iff (c : cursor) :
  TeamBalances.running c = true
  <-> exists d, In d (paydays c) /\ ts_end d < ts_start d.
Proof.
  unfold TeamBalances.running. rewrite existsb_exists.
  split; intros [d [Hin Hlt]]; exists d; split; try assumption;
    now apply Z.ltb_lt.
Qed.

(** C4.  When some payday record has its end timestamp before its start
    timestamp, [_check_no_team_balances] returns right after reading the
    flag: the team query is not executed and no team-balance error is
    raised, by this check or by the whole run, whatever the payments are.
    No other check reads the paydays. *)
Theorem C4_running_payday_skips_team_check (c : cursor) :
  (exists d, In d (paydays c) /\ ts_end d < ts_start d) ->
  (forall log,
      _check_no_team_balances c log = (log ++ [select_payday_running], inr tt))
  /\ (forall log teams,
         snd (check_db c log) <> inl (teams_with_nonzero_balance teams))
  /\ (forall pd,
         _check_balances (with_paydays c pd) = _check_balances c
         /\ _check_tips (with_paydays c pd) = _check_tips c
         /\ _check_orphans (with_paydays c pd) = _check_orphans c
         /\ _check_orphans_no_tips (with_paydays c pd)
            = _check_orphans_no_tips c).
Proof.
  intros Hrun. apply running_iff in Hrun. split; [|split].
  - intros log. rewrite run_check_no_team_balances, Hrun. reflexivity.
  - intros log teams. unfold check_db, bind.
    rewrite run_check_balances.
    destruct (is_empty (Balances.query c)); [|simpl; discriminate].
    rewrite run_check_no_team_balances, Hrun, run_check_tips.
    destruct (Tips.query c =? 0); [|simpl; discriminate].
    rewrite run_check_orphans.
    destruct (is_empty (Orphans.query c)); [|simpl; discriminate].
    rewrite run_check_orphans_no_tips.
    destruct (is_empty (Orphans.query_no_tips c)); simpl; discriminate.
  - intros pd. repeat split.
Qed.

(** An open payday over a team that received 100 and paid out nothing. *)
Lemma C4_running_payday_witness :
  let c := mk_cursor [] [] [mk_payment "alice" "gratiteam" 100 "to-team"] []
                     [mk_team "gratiteam"] [mk_payday 20 0] [] [] [] [] in
  TeamBalances.query c = [("gratiteam", 100)]
  /\ _check_no_team_balances c [] = ([select_payday_running], inr tt).
Proof.
  intros c. split; [reflexivity|].
  refine (proj1 (C4_running_payday_skips_team_check c _) []).
  exists (mk_payday 20 0). split; [left; reflexivity | reflexivity].
Defined.

End RunnerClaims.

(** ** Team balances *)

Module TeamClaims.
  Import Sql SqlFacts Balances Ledger BalanceFacts RunFacts.

Lemma sum_of_team_foo (c : cursor) (s : string) :
  sum_of s (TeamBalances.foo c) = team_delta c s.
Proof.
  unfold TeamBalances.foo, team_delta, sum_to_team, sum_to_participant.
  rewrite sum_of_app, !sum_of_group_sum, !sum_of_select.
  unfold to_participant, to_team.
  induction (payments c) as [|p l IH]; simpl; [reflexivity|].
  destruct (pay_team p =? s)%string; simpl.
  - destruct (String.eqb_spec (pay_direction p) "to-participant") as [->|_];
      simpl; [lia|].
    destruct (pay_direction p =? "to-team")%string; simpl; lia.
  - rewrite !andb_false_r. lia.
Qed.

Lemma has_key_team_foo (c : cursor) (s : string) :
  has_key s (TeamBalances.foo c)
  = existsb (fun p => directed p && (pay_team p =? s)%string) (payments c).
Proof.
  unfold TeamBalances.foo.
  rewrite has_key_app, !has_key_group_sum, !has_key_select, existsb_orb.
  apply existsb_ext. intros p. unfold directed, to_participant, to_team.
  destruct (pay_direction p =? "to-participant")%string,
    (pay_direction p =? "to-team")%string, (pay_team p =? s)%string;
    reflexivity.
Qed.

(** The rows of the team query. *)
Lemma In_team_query (c : cursor) (s : string) (d : Z) :
  In (s, d) (TeamBalances.query c)
  <-> (exists t, In t (teams c) /\ team_slug t = s)
      /\ has_key s (TeamBalances.foo c) = true
      /\ d = team_delta c s /\ d <> 0.
Proof.
  unfold TeamBalances.query. rewrite in_map_iff. split.
  - intros [[[k v] t] [Heq Hin]]. simpl in Heq. inversion Heq; subst.
    apply filter_In in Hin as [Hin Hne]. simpl in Hne.
    apply In_join in Hin as [Hfoo [Ht Hon]]. simpl in Hon.
    apply String.eqb_eq in Hon. rewrite Hon.
    split; [exists t; auto|].
    apply In_group_sum in Hfoo. unfold TeamBalances.foo2 in Hfoo.
    rewrite lookup_group_sum in Hfoo.
    destruct (has_key k (TeamBalances.foo c)); [|discriminate].
    rewrite sum_of_team_foo in Hfoo. inversion Hfoo; subst.
    apply negb_true_iff, Z.eqb_neq in Hne. auto.
  - intros [[t [Ht Hs]] [Hk [Hd Hne]]]. subst.
    exists (team_slug t, team_delta c (team_slug t), t).
    split; [reflexivity|]. apply filter_In. simpl. split.
    + apply In_join. simpl. split; [|split; [assumption|]].
      * apply In_group_sum. unfold TeamBalances.foo2.
        now rewrite lookup_group_sum, Hk, sum_of_team_foo.
      * apply String.eqb_refl.
    + apply negb_true_iff, Z.eqb_neq. exact Hne.
Qed.

(** C5.  With no payday running, every team of the teams relation is
    reported with [delta = sum(to-team) - sum(to-participant)] of its
    payments exactly when that delta is not zero, and the check raises
    exactly when some row is reported.  One to-team payment of 100 paired
    with one to-participant payment of 100 passes; the to-team payment
    alone is reported with delta 100, the to-participant payment alone
    with delta -100. *)
Theorem C5_team_delta_reported_iff_nonzero (c : cursor) :
  TeamBalances.running c = false ->
  (forall t, In t (teams c) ->
     forall d, In (team_slug t, d) (TeamBalances.query c)
               <-> d = team_delta c (team_slug t) /\ d <> 0)
  /\ (forall log,
         _check_no_team_balances c log
         = (log ++ [select_payday_running; select_team_balances],
            if is_empty (TeamBalances.query c) then inr tt
            else inl (teams_with_nonzero_balance (TeamBalances.query c))))
  /\ (forall log,
         _check_no_team_balances
           (mk_cursor [] [] [mk_payment "alice" "gratiteam" 100 "to-team";
                             mk_payment "bob" "gratiteam" 100 "to-participant"]
                      [] [mk_team "gratiteam"] [] [] [] [] []) log
         = (log ++ [select_payday_running; select_team_balances], inr tt))
  /\ (forall log,
         _check_no_team_balances
           (mk_cursor [] [] [mk_payment "alice" "gratiteam" 100 "to-team"]
                      [] [mk_team "gratiteam"] [] [] [] [] []) log
         = (log ++ [select_payday_running; select_team_balances],
            inl (teams_with_nonzero_balance [("gratiteam", 100)])))
  /\ (forall log,
         _check_no_team_balances
           (mk_cursor [] [] [mk_payment "bob" "gratiteam" 100 "to-participant"]
                      [] [mk_team "gratiteam"] [] [] [] [] []) log
         = (log ++ [select_payday_running; select_team_balances],
            inl (teams_with_nonzero_balance [("gratiteam", -100)]))).
Proof.
  intros Hidle. split; [|split; [|repeat split]].
  - intros t Ht d. rewrite In_team_query. split.
    + intros [_ [_ H]]. exact H.
    + intros [Hd Hne]. split; [exists t; auto|].
      split; [|auto].
      destruct (has_key (team_slug t) (TeamBalances.foo c)) eqn:Hk;
        [reflexivity|].
      apply sum_of_no_key in Hk. rewrite sum_of_team_foo in Hk. congruence.
  - intros log. rewrite run_check_no_team_balances, Hidle, <- app_assoc.
    reflexivity.
  - intros log. rewrite run_check_no_team_balances, <- app_assoc.
    reflexivity.
  - intros log. rewrite run_check_no_team_balances, <- app_assoc.
    reflexivity.
  - intros log. rewrite run_check_no_team_balances, <- app_assoc.
    reflexivity.
Qed.

(** A team that received 100 and paid out 40. *)
Lemma C5_team_delta_witness :
  let c := mk_cursor [] [] [mk_payment "alice" "gratiteam" 100 "to-team";
                            mk_payment "bob" "gratiteam" 40 "to-participant"]
                     [] [mk_team "gratiteam"] [mk_payday 0 20] [] [] [] [] in
  TeamBalances.running c = false
  /\ In ("gratiteam", 60) (TeamBalances.query c).
Proof.
  intros c. split; [reflexivity|].
  refine (proj2 (proj1 (C5_team_delta_reported_iff_nonzero c eq_refl)
                       (mk_team "gratiteam") (or_introl eq_refl) 60) _).
  split; [reflexivity | discriminate].
Defined.

(** C10.  Every row of the team query carries the slug of a row of the
    teams relation.  A team identifier that no teams row carries is never
    reported, whatever its payments sum to; when no payment's team has a
    teams row the query is empty and the check passes. *)
Theorem C10_only_joined_teams_reported (c : cursor) :
  (forall s d, In (s, d) (TeamBalances.query c) ->
               exists t, In t (teams c) /\ team_slug t = s)
  /\ (forall s, (forall t, In t (teams c) -> team_slug t <> s) ->
                forall d, ~ In (s, d) (TeamBalances.query c))
  /\ ((forall p t, In p (payments c) -> In t (teams c) ->
                   team_slug t <> pay_team p) ->
      TeamBalances.query c = []
      /\ forall log, snd (_check_no_team_balances c log) = inr tt).
Proof.
  split; [|split].
  - intros s d Hin. apply In_team_query in Hin. tauto.
  - intros s Hnone d Hin. apply In_team_query in Hin as [[t [Ht Hs]] _].
    exact (Hnone t Ht Hs).
  - intros Hnone.
    assert (Hq : TeamBalances.query c = []).
    { apply no_member_nil. intros [s d] Hin.
      apply In_team_query in Hin as [[t [Ht Hs]] [Hk _]].
      rewrite has_key_team_foo in Hk.
      apply existsb_exists in Hk as [p [Hp Hcond]].
      apply andb_true_iff in Hcond as [_ Hteam].
      apply String.eqb_eq in Hteam. apply (Hnone p t Hp Ht). congruence. }
    split; [exact Hq|]. intros log.
    rewrite run_check_no_team_balances, Hq.
    destruct (TeamBalances.running c); reflexivity.
Qed.

(** Payments of a team that has no teams row. *)
Lemma C10_unjoined_team_witness :
  let c := mk_cursor [] [] [mk_payment "alice" "ghost" 100 "to-team"] []
                     [mk_team "gratiteam"] [] [] [] [] [] in
  team_delta c "ghost" = 100 /\ TeamBalances.query c = [].
Proof.
  intros c. split; [reflexivity|].
  refine (proj1 (proj2 (proj2 (C10_only_joined_teams_reported c)) _)).
  intros p t [<-|[]] [<-|[]]. discriminate.
Defined.

End TeamClaims.

(** ** Duplicate tips *)

Module TipClaims.
  Import Tips.

Lemma same_key_rows (a b : tip) :
  tip_tipper a = tip_tipper b ->
  tip_tippee a = tip_tippee b ->
  tip_mtime a = tip_mtime b ->
  same_key b a = true /\ tip_eqb b a = (tip_amount b =? tip_amount a).
Proof.
  intros H1 H2 H3. unfold same_key, tip_eqb.
  rewrite H1, H2, H3, !String.eqb_refl, Z.eqb_refl.
  auto.
Qed.

Lemma insert_length (r : tip) (l : list tip) :
  List.length (insert r l) = S (List.length l).
Proof.
  induction l as [|s l IH]; simpl; [reflexivity|].
  destruct (key_compare r s); simpl; now rewrite ?IH.
Qed.

(** Sorting the counted rows does not change their number. *)
Lemma order_by_length (l : list tip) :
  List.length (order_by l) = List.length l.
Proof.
  induction l as [|r l IH]; simpl; [reflexivity|].
  now rewrite insert_length, IH.
Qed.

Lemma tip_eqb_refl (a : tip) : tip_eqb a a = true.
Proof.
  unfold tip_eqb. now rewrite !String.eqb_refl, !Z.eqb_refl.
Qed.

(** Two rows with one key.  When the tips relation holds exactly two rows
    and they share (tipper, tippee, mtime), the count is 1 if the two rows
    differ in the remaining column and 0 if they agree on every column:
    [except] compares whole rows, so the second copy of an identical row is
    removed together with the first. *)
Theorem C3_two_rows_same_key (c : cursor) (r1 r2 : tip) :
  tips c = [r1; r2] ->
  tip_tipper r1 = tip_tipper r2 ->
  tip_tippee r1 = tip_tippee r2 ->
  tip_mtime r1 = tip_mtime r2 ->
  Tips.query c = if tip_amount r1 =? tip_amount r2 then 0 else 1.
Proof.
  intros Htips H1 H2 H3.
  destruct (same_key_rows r1 r2 H1 H2 H3) as [Hkey Heqb].
  unfold query. rewrite order_by_length, Htips.
  unfold distinct_on, except. simpl.
  rewrite Hkey. simpl.
  rewrite tip_eqb_refl, Heqb, Z.eqb_sym. simpl.
  destruct (tip_amount r1 =? tip_amount r2); reflexivity.
Qed.

(** Two rows for one key whose amounts differ. *)
Lemma C3_two_rows_witness :
  Tips.query (mk_cursor [] [] [] [] [] []
                        [mk_tip "alice" "bob" 7 1; mk_tip "alice" "bob" 7 2]
                        [] [] [])
  = 1.
Proof.
  exact (C3_two_rows_same_key
           (mk_cursor [] [] [] [] [] []
                      [mk_tip "alice" "bob" 7 1; mk_tip "alice" "bob" 7 2]
                      [] [] [])
           (mk_tip "alice" "bob" 7 1) (mk_tip "alice" "bob" 7 2)
           eq_refl eq_refl eq_refl eq_refl).
Defined.

(** Two rows that agree on every column share their key and yet the count
    is 0. *)
Lemma C3_identical_rows_count_zero :
  ~ (forall (c : cursor) (r1 r2 : tip),
        tips c = [r1; r2] ->
        tip_tipper r1 = tip_tipper r2 ->
        tip_tippee r1 = tip_tippee r2 ->
        tip_mtime r1 = tip_mtime r2 ->
        Tips.query c = 1).
Proof.
  intros H.
  pose (r := mk_tip "alice" "bob" 7 1).
  specialize (H (mk_cursor [] [] [] [] [] [] [r; r] [] [] []) r r
                eq_refl eq_refl eq_refl eq_refl).
  discriminate H.
Qed.


End TipClaims.

(** ** Orphans *)

Module OrphanClaims.
  Import Orphans.

Lemma count_occ_select (h : string -> bool) (l : list participant)
      (u : string) :
  count_occ string_dec
            (map p_username (filter (fun p => h (p_username p)) l)) u
  = if h u then count_occ string_dec (map p_username l) u else 0%nat.
Proof.
  induction l as [|p l IH]; simpl.
  - now destruct (h u).
  - destruct (h (p_username p)) eqn:Hp; simpl.
    + destruct (string_dec (p_username p) u) as [<-|_]; rewrite IH.
      * now rewrite Hp.
      * reflexivity.
    + rewrite IH. destruct (string_dec (p_username p) u) as [<-|_].
      * now rewrite Hp.
      * reflexivity.
Qed.

Lemma has_elsewhere_false (c : cursor) (u : string) :
  has_elsewhere c u = false
  <-> forall e, In e (elsewhere c) -> e_participant e <> u.
Proof.
  unfold has_elsewhere. split.
  - intros H e He Heq.
    assert (Ht : existsb (fun e => (e_participant e =? u)%string)
                         (elsewhere c) = true).
    { apply existsb_exists. exists e. split; [assumption|].
      now apply String.eqb_eq. }
    congruence.
  - intros H. apply not_true_is_false. intros Ht.
    apply existsb_exists in Ht as [e [He Heq]].
    apply String.eqb_eq in Heq. exact (H e He Heq).
Qed.

Lemma was_absorbed_false (c : cursor) (u : string) :
  was_absorbed c u = false
  <-> forall a, In a (absorptions c) -> archived_as a <> u.
Proof.
  unfold was_absorbed. split.
  - intros H a Ha Heq.
    assert (Ht : existsb (fun a => (archived_as a =? u)%string)
                         (absorptions c) = true).
    { apply existsb_exists. exists a. split; [assumption|].
      now apply String.eqb_eq. }
    congruence.
  - intros H. apply not_true_is_false. intros Ht.
    apply existsb_exists in Ht as [a [Ha Heq]].
    apply String.eqb_eq in Heq. exact (H a Ha Heq).
Qed.

Lemma count_occ_orphans (c : cursor) (u : string) :
  count_occ string_dec (query c) u
  = if negb (has_elsewhere c u) && negb (was_absorbed c u)
    then count_occ string_dec (map p_username (participants c)) u
    else 0%nat.
Proof.
  unfold query.
  apply (count_occ_select
           (fun u => negb (has_elsewhere c u) && negb (was_absorbed c u))).
Qed.

(** The orphan query lists a username as often as the participants
    relation holds it when the username has neither an elsewhere row nor
    an absorption archived under it, and not at all otherwise; one more
    elsewhere row, or one more absorption row, for a username removes it
    from the answer. *)
Lemma orphan_query_counts (c : cursor) :
  (forall u,
      count_occ string_dec (query c) u
      = if negb (has_elsewhere c u) && negb (was_absorbed c u)
        then count_occ string_dec (map p_username (participants c)) u
        else 0%nat)
  /\ (NoDup (map p_username (participants c)) ->
      forall p, In p (participants c) ->
        (count_occ string_dec (query c) (p_username p) = 1%nat
         <-> (forall e, In e (elsewhere c) -> e_participant e <> p_username p)
             /\ (forall a, In a (absorptions c) ->
                           archived_as a <> p_username p))
        /\ (In (p_username p) (query c)
            <-> count_occ string_dec (query c) (p_username p) = 1%nat))
  /\ (forall e before after,
         elsewhere c = before ++ after ->
         ~ In (e_participant e)
              (query (with_elsewhere c (before ++ e :: after))))
  /\ (forall a before after,
         absorptions c = before ++ after ->
         ~ In (archived_as a)
              (query (with_absorptions c (before ++ a :: after)))).
Proof.
  split; [exact (count_occ_orphans c)|]. split; [|split].
  - intros Hnd p Hp.
    assert (Hone : count_occ string_dec (map p_username (participants c))
                             (p_username p) = 1%nat).
    { assert (Hin : In (p_username p) (map p_username (participants c)))
        by now apply in_map.
      apply (count_occ_In string_dec) in Hin.
      pose proof (proj1 (NoDup_count_occ string_dec _) Hnd (p_username p)).
      lia. }
    split.
    + rewrite count_occ_orphans, Hone, <- has_elsewhere_false,
        <- was_absorbed_false.
      destruct (has_elsewhere c (p_username p)),
        (was_absorbed c (p_username p)); simpl;
        intuition discriminate.
    + rewrite (count_occ_In string_dec), count_occ_orphans, Hone.
      destruct (negb (has_elsewhere c (p_username p))
                && negb (was_absorbed c (p_username p))); lia.
  - intros e before after _ Hin. apply (count_occ_In string_dec) in Hin.
    rewrite count_occ_orphans in Hin. unfold has_elsewhere in Hin.
    simpl in Hin. rewrite existsb_app in Hin. simpl in Hin.
    rewrite String.eqb_refl, orb_true_r in Hin. simpl in Hin. lia.
  - intros a before after _ Hin. apply (count_occ_In string_dec) in Hin.
    rewrite count_occ_orphans in Hin. unfold was_absorbed in Hin.
    simpl in Hin. rewrite existsb_app in Hin. simpl in Hin.
    rewrite String.eqb_refl, orb_true_r, andb_false_r in Hin. lia.
Qed.

Lemma run_orphans_raised (c : cursor) (log l' : list statement)
      (orphans : list string) :
  _check_orphans c log = (l', inl (missing_elsewheres orphans)) ->
  orphans = query c /\ query c <> [].
Proof.
  rewrite RunFacts.run_check_orphans.
  destruct (query c) as [|u l] eqn:Hq; simpl; intros H; inversion H.
  split; [reflexivity | discriminate].
Qed.

(** C8.  [_check_orphans] executes the orphan query and raises with its
    answer unless the answer is empty.  With usernames unique, a participant
    has no elsewhere row and no absorption archived under its username if
    and only if the check raises with a list that holds the username
    exactly once; otherwise a raised list does not hold it at all.  The
    check passes exactly when every participant has one or the other, and
    after one more elsewhere row, or one more absorption row, for a username
    the check no longer reports that username. *)
Theorem C8_orphan_reported_once_iff_unlinked (c : cursor) :
  (forall log,
      _check_orphans c log
      = (log ++ [select_orphans],
         if is_empty (query c) then inr tt
         else inl (missing_elsewheres (query c))))
  /\ (NoDup (map p_username (participants c)) ->
      forall p, In p (participants c) ->
      forall log,
        (((forall e, In e (elsewhere c) -> e_participant e <> p_username p)
          /\ (forall a, In a (absorptions c) ->
                        archived_as a <> p_username p))
         <-> exists orphans,
               _check_orphans c log
               = (log ++ [select_orphans], inl (missing_elsewheres orphans))
               /\ count_occ string_dec orphans (p_username p) = 1%nat)
        /\ (forall l' orphans,
               _check_orphans c log = (l', inl (missing_elsewheres orphans)) ->
               count_occ string_dec orphans (p_username p) = 1%nat
               \/ ~ In (p_username p) orphans))
  /\ (forall log,
         snd (_check_orphans c log) = inr tt
         <-> forall p, In p (participants c) ->
                       (exists e, In e (elsewhere c)
                                  /\ e_participant e = p_username p)
                       \/ (exists a, In a (absorptions c)
                                     /\ archived_as a = p_username p))
  /\ (forall e before after log l' orphans,
         elsewhere c = before ++ after ->
         _check_orphans (with_elsewhere c (before ++ e :: after)) log
         = (l', inl (missing_elsewheres orphans)) ->
         ~ In (e_participant e) orphans)
  /\ (forall a before after log l' orphans,
         absorptions c = before ++ after ->
         _check_orphans (with_absorptions c (before ++ a :: after)) log
         = (l', inl (missing_elsewheres orphans)) ->
         ~ In (archived_as a) orphans).
Proof.
  destruct (orphan_query_counts c) as [Hcount [Honce [Hlink Habs]]].
  split; [intros log; apply RunFacts.run_check_orphans|].
  split; [|split; [|split]].
  - intros Hnd p Hp log.
    destruct (Honce Hnd p Hp) as [Hiff Hin]. split.
    + rewrite <- Hiff. split.
      * intros H1. exists (query c). split; [|exact H1].
        rewrite RunFacts.run_check_orphans.
        apply Hin in H1. destruct (query c); [destruct H1 | reflexivity].
      * intros [orphans [Hrun H1]].
        apply run_orphans_raised in Hrun as [-> _]. exact H1.
    + intros l' orphans Hrun.
      apply run_orphans_raised in Hrun as [-> _].
      destruct (in_dec string_dec (p_username p) (query c)) as [Hi|Hn];
        [left; now apply Hin | now right].
  - intros log. rewrite RunFacts.run_check_orphans. simpl. split.
    + intros Hok p Hp.
      assert (Hq : query c = [])
        by (destruct (query c); [reflexivity | discriminate]).
      pose proof (Hcount (p_username p)) as Hc. rewrite Hq in Hc.
      simpl in Hc.
      assert (Hpos : (0 < count_occ string_dec
                             (map p_username (participants c))
                             (p_username p))%nat).
      { apply (count_occ_In string_dec). now apply in_map. }
      destruct (has_elsewhere c (p_username p)) eqn:He.
      * left. unfold has_elsewhere in He.
        apply existsb_exists in He as [e [He Heq]].
        apply String.eqb_eq in Heq. now exists e.
      * destruct (was_absorbed c (p_username p)) eqn:Ha.
        -- right. unfold was_absorbed in Ha.
           apply existsb_exists in Ha as [a [Ha Heq]].
           apply String.eqb_eq in Heq. now exists a.
        -- simpl in Hc. lia.
    + intros Hall.
      assert (Hq : query c = []).
      { apply RunFacts.no_member_nil. intros u Hu.
        unfold query in Hu. apply in_map_iff in Hu as [p [Hpu Hp]].
        apply filter_In in Hp as [Hp Hcond].
        apply andb_true_iff in Hcond as [He Ha].
        apply negb_true_iff in He. apply negb_true_iff in Ha.
        destruct (Hall p Hp) as [[e [Hin Heq]]|[a [Hin Heq]]].
        - apply (proj1 (has_elsewhere_false c (p_username p)) He e Hin Heq).
        - apply (proj1 (was_absorbed_false c (p_username p)) Ha a Hin Heq). }
      now rewrite Hq.
  - intros e before after log l' orphans Hex Hrun.
    apply run_orphans_raised in Hrun as [-> _].
    destruct (orphan_query_counts c) as [_ [_ [Hl _]]].
    now apply Hl.
  - intros a before after log l' orphans Hex Hrun.
    apply run_orphans_raised in Hrun as [-> _].
    now apply Habs.
Qed.

(** Two participants, of which only bob has an elsewhere account. *)
Lemma C8_orphan_witness :
  let c := mk_cursor [] [] []
                     [mk_participant "alice" 0; mk_participant "bob" 0]
                     [] [] [] [] [mk_elsewhere "bob"] [] in
  exists orphans,
    _check_orphans c [] = ([select_orphans], inl (missing_elsewheres orphans))
    /\ count_occ string_dec orphans "alice" = 1%nat.
Proof.
  intros c.
  assert (Hnd : NoDup (map p_username (participants c))).
  { repeat constructor; simpl; intuition discriminate. }
  refine (proj1 (proj1 (proj1 (proj2 (C8_orphan_reported_once_iff_unlinked c))
                              Hnd (mk_participant "alice" 0)
                              (or_introl eq_refl) [])) _).
  split.
  - intros e [<-|[]]. discriminate.
  - intros a [].
Defined.

End OrphanClaims.

(** ** The duplicate-tip count in general *)

Module TipFacts.
  Import Tips.

Lemma tip_eqb_eq (a b : tip) : tip_eqb a b = true <-> a = b.
Proof.
  unfold tip_eqb. destruct a, b; simpl.
  rewrite !andb_true_iff, !String.eqb_eq, !Z.eqb_eq. split.
  - intros [[[-> ->] ->] ->]. reflexivity.
  - intros H. inversion H. auto.
Qed.

Lemma same_key_iff (a b : tip) :
  same_key a b = true <-> tip_key a = tip_key b.
Proof.
  unfold same_key, tip_key.
  rewrite !andb_true_iff, !String.eqb_eq, Z.eqb_eq. split.
  - intros [[-> ->] ->]. reflexivity.
  - intros H. inversion H. auto.
Qed.

Lemma existsb_tip_eqb (r : tip) (l : list tip) :
  existsb (tip_eqb r) l = true <-> In r l.
Proof.
  rewrite existsb_exists. split.
  - intros [x [Hx Heq]]. apply tip_eqb_eq in Heq. now subst.
  - intros H. exists r. split; [assumption | now apply tip_eqb_eq].
Qed.

Lemma existsb_same_key (r : tip) (l : list tip) :
  existsb (same_key r) l = true
  <-> exists s, In s l /\ tip_key s = tip_key r.
Proof.
  rewrite existsb_exists. split; intros [s [Hs Hk]]; exists s;
    (split; [assumption|]).
  - apply same_key_iff in Hk. auto.
  - apply same_key_iff. auto.
Qed.

(** The model's duplicate removal is the library's. *)
Lemma distinct_nodup (l : list tip) : distinct l = nodup tip_dec l.
Proof.
  induction l as [|r l IH]; simpl; [reflexivity|].
  destruct (in_dec tip_dec r l) as [Hin|Hnin].
  - apply existsb_tip_eqb in Hin. now rewrite Hin.
  - destruct (existsb (tip_eqb r) l) eqn:He.
    + apply existsb_tip_eqb in He. contradiction.
    + now rewrite IH.
Qed.

Lemma nodup_filter {A : Type} (dec : forall x y : A, {x = y} + {x <> y})
      (f : A -> bool) (l : list A) :
  nodup dec (filter f l) = filter f (nodup dec l).
Proof.
  induction l as [|x l IH]; simpl; [reflexivity|].
  destruct (f x) eqn:Hf; simpl.
  - destruct (in_dec dec x (filter f l)) as [Hin|Hnin];
      destruct (in_dec dec x l) as [Hin'|Hnin']; simpl; rewrite ?Hf.
    + exact IH.
    + apply filter_In in Hin. tauto.
    + exfalso. apply Hnin. apply filter_In. auto.
    + now rewrite IH.
  - destruct (in_dec dec x l); simpl; rewrite ?Hf; exact IH.
Qed.

Lemma distinct_on_seen_In (seen rows : list tip) (d : tip) :
  In d (distinct_on_seen seen rows) ->
  In d rows /\ existsb (same_key d) seen = false.
Proof.
  revert seen. induction rows as [|r rows IH]; simpl; intros seen Hin.
  - destruct Hin.
  - destruct (existsb (same_key r) seen) eqn:Hs.
    + destruct (IH _ Hin). auto.
    + destruct Hin as [<-|Hin]; [auto|].
      destruct (IH _ Hin) as [Hr Hk]. simpl in Hk.
      apply orb_false_iff in Hk. tauto.
Qed.

(** [distinct on] keeps at most one row per key ... *)
Lemma distinct_on_seen_keys (seen rows : list tip) :
  NoDup (map tip_key (distinct_on_seen seen rows)).
Proof.
  revert seen. induction rows as [|r rows IH]; simpl; intros seen.
  - constructor.
  - destruct (existsb (same_key r) seen); [apply IH|].
    simpl. constructor; [|apply IH].
    intros Hin. apply in_map_iff in Hin as [d [Hk Hd]].
    apply distinct_on_seen_In in Hd as [_ Hd]. simpl in Hd.
    apply orb_false_iff in Hd as [Hd _].
    assert (Ht : same_key d r = true) by now apply same_key_iff.
    congruence.
Qed.

(** ... and at least one. *)
Lemma distinct_on_seen_cover (seen rows : list tip) (r : tip) :
  In r rows ->
  existsb (same_key r) seen = true
  \/ exists d, In d (distinct_on_seen seen rows) /\ tip_key d = tip_key r.
Proof.
  revert seen. induction rows as [|r0 rows IH]; simpl; intros seen Hin.
  - destruct Hin.
  - destruct (existsb (same_key r0) seen) eqn:Hs.
    + destruct Hin as [<-|Hin]; [now left | now apply IH].
    + destruct Hin as [<-|Hin].
      * right. exists r0. simpl. auto.
      * destruct (IH (r0 :: seen) Hin) as [Hk|[d [Hd Hk]]].
        -- simpl in Hk. apply orb_true_iff in Hk as [Hk|Hk]; [|now left].
           right. exists r0. simpl. split; [now left|].
           apply same_key_iff in Hk. auto.
        -- right. exists d. simpl. auto.
Qed.

Lemma distinct_on_In (rows : list tip) (d : tip) :
  In d (distinct_on rows) -> In d rows.
Proof.
  intros H. now apply distinct_on_seen_In in H.
Qed.

Lemma distinct_on_cover (rows : list tip) (r : tip) :
  In r rows -> exists d, In d (distinct_on rows) /\ tip_key d = tip_key r.
Proof.
  intros H. destruct (distinct_on_seen_cover [] rows r H) as [Hk|Hd];
    [discriminate | exact Hd].
Qed.

Lemma NoDup_map_injective {A B : Type} (f : A -> B) (l : list A) (a b : A) :
  NoDup (map f l) -> In a l -> In b l -> f a = f b -> a = b.
Proof.
  induction l as [|x l IH]; simpl; intros Hnd Ha Hb Hf; [destruct Ha|].
  inversion Hnd as [|? ? Hnin Hnd']; subst.
  destruct Ha as [<-|Ha], Hb as [<-|Hb].
  - reflexivity.
  - exfalso. apply Hnin. rewrite Hf. now apply in_map.
  - exfalso. apply Hnin. rewrite <- Hf. now apply in_map.
  - now apply IH.
Qed.

Lemma distinct_on_unique (rows : list tip) (a b : tip) :
  In a (distinct_on rows) -> In b (distinct_on rows) ->
  tip_key a = tip_key b -> a = b.
Proof.
  apply NoDup_map_injective, distinct_on_seen_keys.
Qed.

Lemma except_In (a b : list tip) (r : tip) :
  In r (except a b) <-> In r a /\ ~ In r b.
Proof.
  unfold except. rewrite distinct_nodup, nodup_In, filter_In.
  rewrite negb_true_iff, <- not_true_iff_false, existsb_tip_eqb. tauto.
Qed.

End TipFacts.

Module TipExtras.
  Import Tips TipFacts RunFacts.

(** X1.  [_check_tips] passes exactly when no two different rows of tips
    share (tipper, tippee, mtime): rows that agree on the key agree on
    every column. *)
Theorem check_tips_passes_iff (c : cursor) (log : list statement) :
  snd (_check_tips c log) = inr tt
  <-> forall r1 r2, In r1 (tips c) -> In r2 (tips c) ->
                    tip_key r1 = tip_key r2 -> r1 = r2.
Proof.
  rewrite run_check_tips. simpl. unfold query. rewrite TipClaims.order_by_length.
  split.
  - intros Hok r1 r2 H1 H2 Hk.
    assert (Hnil : except (tips c) (distinct_on (tips c)) = []).
    { destruct (except (tips c) (distinct_on (tips c))); [reflexivity|].
      simpl in Hok. discriminate. }
    assert (Hin : forall r, In r (tips c) -> In r (distinct_on (tips c))).
    { intros r Hr. destruct (in_dec tip_dec r (distinct_on (tips c)));
        [assumption|].
      assert (Hex : In r (except (tips c) (distinct_on (tips c))))
        by (apply except_In; auto).
      rewrite Hnil in Hex. destruct Hex. }
    apply (distinct_on_unique (tips c)); auto.
  - intros Huniq.
    assert (Hnil : except (tips c) (distinct_on (tips c)) = []).
    { apply no_member_nil. intros r Hr. apply except_In in Hr as [Hr Hn].
      destruct (distinct_on_cover _ _ Hr) as [d [Hd Hk]].
      apply Hn. rewrite <- (Huniq d r); auto using distinct_on_In. }
    rewrite Hnil. reflexivity.
Qed.

Lemma same_members_same_length {A : Type} (l l' : list A) :
  NoDup l -> NoDup l' -> (forall x, In x l <-> In x l') ->
  List.length l = List.length l'.
Proof.
  intros Hl Hl' Hiff. apply Nat.le_antisymm; apply NoDup_incl_length;
    try assumption; intros x Hx; now apply Hiff.
Qed.

Lemma filter_split_length {A : Type} (f : A -> bool) (l : list A) :
  (List.length (filter f l)
   + List.length (filter (fun x => negb (f x)) l))%nat
  = List.length l.
Proof.
  induction l as [|x l IH]; simpl; [reflexivity|].
  destruct (f x); simpl; lia.
Qed.

(** X2.  The number [_check_tips] asserts on is the number of distinct
    rows of tips minus the number of distinct (tipper, tippee, mtime)
    keys. *)
Theorem conflicting_tips_count (c : cursor) :
  Tips.query c
  = Z.of_nat (List.length (nodup tip_dec (tips c)))
    - Z.of_nat (List.length (nodup key_dec (map tip_key (tips c)))).
Proof.
  unfold query. rewrite TipClaims.order_by_length.
  set (D := distinct_on (tips c)).
  assert (HD : List.length D
               = List.length (nodup key_dec (map tip_key (tips c)))).
  { rewrite <- (length_map tip_key D).
    apply same_members_same_length.
    - apply distinct_on_seen_keys.
    - apply NoDup_nodup.
    - intros k. rewrite nodup_In, !in_map_iff. split.
      + intros [d [Hk Hd]]. exists d. split; [assumption|].
        now apply distinct_on_In.
      + intros [r [Hk Hr]]. destruct (distinct_on_cover _ _ Hr) as [d [Hd Hkd]].
        exists d. split; [congruence | assumption]. }
  unfold except. rewrite distinct_nodup, nodup_filter.
  pose proof (filter_split_length
                (fun r => negb (existsb (tip_eqb r) D))
                (nodup tip_dec (tips c))) as Hsplit.
  assert (Hin : List.length
                  (filter (fun r => negb (negb (existsb (tip_eqb r) D)))
                          (nodup tip_dec (tips c)))
                = List.length D).
  { apply same_members_same_length.
    - apply NoDup_filter, NoDup_nodup.
    - apply (NoDup_map_inv tip_key), distinct_on_seen_keys.
    - intros r. rewrite filter_In, nodup_In, negb_involutive,
        existsb_tip_eqb.
      split; [tauto|]. intros Hr. split; [|assumption].
      now apply distinct_on_In. }
  rewrite <- HD. lia.
Qed.

End TipExtras.

(** ** Orphans with outstanding tips *)

Module OrphanExtras.
  Import Orphans OrphanClaims RunFacts.

(** The usernames the query of [_check_orphans_no_tips] returns. *)
Lemma orphans_with_tips_query (c : cursor) :
  NoDup (query_no_tips c)
  /\ forall u,
       In u (query_no_tips c)
       <-> (exists t, In t (current_tips c) /\ tip_amount t > 0
                      /\ (tip_tipper t = u \/ tip_tippee t = u))
           /\ (forall e, In e (elsewhere c) -> e_participant e <> u).
Proof.
  unfold query_no_tips, tip_parties, valid_tips. split.
  - apply NoDup_filter, NoDup_nodup.
  - intros u. rewrite filter_In, nodup_In, in_app_iff, !in_map_iff,
      negb_true_iff, has_elsewhere_false.
    split; intros [Htip Hlink]; (split; [|exact Hlink]).
    + destruct Htip as [[t [Hu Ht]]|[t [Hu Ht]]];
        apply filter_In in Ht as [Ht Hpos]; apply Z.gtb_lt in Hpos;
        exists t; (split; [assumption|]); (split; [lia|]); auto.
    + destruct Htip as [t [Ht [Hpos [Hu|Hu]]]]; [left|right];
        exists t; (split; [assumption|]); apply filter_In;
        (split; [assumption|]); apply Z.gtb_lt; lia.
Qed.

(** X3.  A username is the tipper or the tippee of a current tip with a
    positive amount and has no elsewhere row if and only if
    [_check_orphans_no_tips] raises with a list that holds it; the raised
    list holds no username twice, however many such tips a username has.
    The check passes exactly when there is no such username. *)
Theorem orphans_with_tips_reported_iff (c : cursor) (log : list statement) :
  (forall u,
      ((exists t, In t (current_tips c) /\ tip_amount t > 0
                  /\ (tip_tipper t = u \/ tip_tippee t = u))
       /\ (forall e, In e (elsewhere c) -> e_participant e <> u))
      <-> exists orphans,
            _check_orphans_no_tips c log
            = (log ++ [select_orphans_with_tips],
               inl (orphans_with_tips orphans))
            /\ In u orphans /\ NoDup orphans)
  /\ (snd (_check_orphans_no_tips c log) = inr tt
      <-> forall t, In t (current_tips c) -> tip_amount t > 0 ->
                    (exists e, In e (elsewhere c)
                               /\ e_participant e = tip_tipper t)
                    /\ (exists e, In e (elsewhere c)
                                  /\ e_participant e = tip_tippee t)).
Proof.
  destruct (orphans_with_tips_query c) as [Hnd Hin].
  rewrite run_check_orphans_no_tips. split.
  - intros u. rewrite <- Hin. split.
    + intros Hu. exists (query_no_tips c).
      destruct (query_no_tips c); [destruct Hu | auto].
    + intros [orphans [Hrun [Hu _]]].
      destruct (query_no_tips c) eqn:Hq; simpl in Hrun; inversion Hrun.
      subst. exact Hu.
  - simpl. split.
    + intros Hok t Ht Hpos.
      assert (Hq : query_no_tips c = [])
        by (destruct (query_no_tips c); [reflexivity | discriminate]).
      assert (Hlinked : forall u, tip_tipper t = u \/ tip_tippee t = u ->
                                  exists e, In e (elsewhere c)
                                            /\ e_participant e = u).
      { intros u Hu.
        destruct (has_elsewhere c u) eqn:He.
        - unfold has_elsewhere in He.
          apply existsb_exists in He as [e [He Heq]].
          apply String.eqb_eq in Heq. now exists e.
        - exfalso.
          pose proof (proj1 (has_elsewhere_false c u) He) as Hno.
          assert (Hrep : In u (query_no_tips c)).
          { apply Hin. split; [|exact Hno]. now exists t. }
          rewrite Hq in Hrep. destruct Hrep. }
      split; apply Hlinked; auto.
    + intros Hall.
      assert (Hq : query_no_tips c = []).
      { apply no_member_nil. intros u Hu.
        apply Hin in Hu as [[t [Ht [Hpos Hparty]]] Hno].
        destruct (Hall t Ht Hpos) as [[e1 [He1 Heq1]] [e2 [He2 Heq2]]].
        destruct Hparty as [Hu|Hu]; subst u.
        - exact (Hno e1 He1 Heq1).
        - exact (Hno e2 He2 Heq2). }
      now rewrite Hq.
Qed.

(** X4.  When [_check_orphans] passes, whoever [_check_orphans_no_tips]
    reports is not a participant at all or is the archived identity of an
    absorption: the second check adds something to the first only for
    those. *)
Theorem orphans_no_tips_beyond_orphans (c : cursor) (log : list statement) :
  snd (_check_orphans c log) = inr tt ->
  forall u, In u (query_no_tips c) ->
            ~ In u (map p_username (participants c))
            \/ exists a, In a (absorptions c) /\ archived_as a = u.
Proof.
  rewrite run_check_orphans. simpl. intros Hok u Hu.
  assert (Hq : query c = []).
  { destruct (query c); [reflexivity | discriminate]. }
  assert (Hlink : has_elsewhere c u = false).
  { unfold query_no_tips in Hu. apply filter_In in Hu as [_ Hu].
    now apply negb_true_iff in Hu. }
  destruct (in_dec string_dec u (map p_username (participants c)))
    as [Hin|Hnin]; [|now left].
  right.
  destruct (was_absorbed c u) eqn:Hab.
  - unfold was_absorbed in Hab. apply existsb_exists in Hab as [a [Ha Heq]].
    apply String.eqb_eq in Heq. now exists a.
  - exfalso.
    apply (count_occ_In string_dec) in Hin.
    pose proof (count_occ_orphans c u) as Hc.
    rewrite Hq, Hlink, Hab in Hc. simpl in Hc. lia.
Qed.

(** A tipper that is no participant, in a snapshot without orphans. *)
Lemma orphans_no_tips_beyond_orphans_witness :
  let c := mk_cursor [] [] [] [mk_participant "bob" 0] [] [] []
                     [mk_tip "alice" "bob" 1 5] [mk_elsewhere "bob"] [] in
  ~ In "alice" (map p_username (participants c))
  \/ exists a, In a (absorptions c) /\ archived_as a = "alice".
Proof.
  intros c.
  refine (orphans_no_tips_beyond_orphans c [] eq_refl "alice" _).
  left. reflexivity.
Defined.

End OrphanExtras.

(** ** The statements a run executes *)

Module RunnerExtras.
  Import RunFacts.

(** X5.  A run of [check_db] only appends to the statements the cursor has
    executed, executes no statement twice, and reaches the same outcome
    whatever was executed before; when it returns normally it has executed
    the statements of all five checks in the order of the source, the team
    query being left out while a payday is running. *)
Theorem check_db_statements (c : cursor) (log : list statement) :
  exists suffix,
    fst (check_db c log) = log ++ suffix
    /\ NoDup suffix
    /\ snd (check_db c log) = snd (self_check c)
    /\ (snd (check_db c log) = inr tt ->
        suffix
        = [select_balances; select_payday_running]
            ++ (if TeamBalances.running c then [] else [select_team_balances])
            ++ [select_conflicting_tips; select_orphans;
                select_orphans_with_tips]).
Proof.
  unfold self_check, check_db, bind.
  rewrite !run_check_balances.
  destruct (is_empty (Balances.query c)).
  2:{ exists [select_balances]. simpl. repeat split.
      - repeat constructor; simpl; intuition discriminate.
      - discriminate. }
  rewrite !run_check_no_team_balances.
  destruct (TeamBalances.running c).
  - rewrite !run_check_tips.
    destruct (Tips.query c =? 0).
    2:{ exists [select_balances; select_payday_running;
                select_conflicting_tips].
        simpl. rewrite <- !app_assoc. simpl. repeat split.
        - repeat constructor; simpl; intuition discriminate.
        - discriminate. }
    rewrite !run_check_orphans.
    destruct (is_empty (Orphans.query c)).
    2:{ exists [select_balances; select_payday_running;
                select_conflicting_tips; select_orphans].
        simpl. rewrite <- !app_assoc. simpl. repeat split.
        - repeat constructor; simpl; intuition discriminate.
        - discriminate. }
    rewrite !run_check_orphans_no_tips.
    exists [select_balances; select_payday_running;
            select_conflicting_tips; select_orphans;
            select_orphans_with_tips].
    simpl. rewrite <- !app_assoc. simpl. repeat split.
    repeat constructor; simpl; intuition discriminate.
  - destruct (is_empty (TeamBalances.query c)).
    2:{ exists [select_balances; select_payday_running;
                select_team_balances].
        simpl. rewrite <- !app_assoc. simpl. repeat split.
        - repeat constructor; simpl; intuition discriminate.
        - discriminate. }
    rewrite !run_check_tips.
    destruct (Tips.query c =? 0).
    2:{ exists [select_balances; select_payday_running;
                select_team_balances; select_conflicting_tips].
        simpl. rewrite <- !app_assoc. simpl. repeat split.
        - repeat constructor; simpl; intuition discriminate.
        - discriminate. }
    rewrite !run_check_orphans.
    destruct (is_empty (Orphans.query c)).
    2:{ exists [select_balances; select_payday_running;
                select_team_balances; select_conflicting_tips;
                select_orphans].
        simpl. rewrite <- !app_assoc. simpl. repeat split.
        - repeat constructor; simpl; intuition discriminate.
        - discriminate. }
    rewrite !run_check_orphans_no_tips.
    exists [select_balances; select_payday_running;
            select_team_balances; select_conflicting_tips; select_orphans;
            select_orphans_with_tips].
    simpl. rewrite <- !app_assoc. simpl. repeat split.
    repeat constructor; simpl; intuition discriminate.
Qed.

End RunnerExtras.

(** ** Totals of the expected balances *)

Module LedgerExtras.
  Import Sql SqlFacts Balances Ledger BalanceFacts.

Lemma zsum_pick (k0 : string) (v : Z) (ks : list string) :
  NoDup ks ->
  zsum (map (fun k => if (k0 =? k)%string then v else 0) ks)
  = if in_dec string_dec k0 ks then v else 0.
Proof.
  induction 1 as [|k ks Hnin Hnd IH]; simpl; [reflexivity|].
  rewrite IH. destruct (String.eqb_spec k0 k) as [<-|Hne].
  - destruct (string_dec k0 k0); [|contradiction].
    destruct (in_dec string_dec k0 ks); [contradiction | lia].
  - destruct (string_dec k k0); [congruence|].
    destruct (in_dec string_dec k0 ks); reflexivity.
Qed.

Lemma zsum_per_key (rows : list (string * Z)) (ks : list string) :
  NoDup ks ->
  (forall k, In k (map fst rows) -> In k ks) ->
  zsum (map (fun k => sum_of k rows) ks) = zsum (map snd rows).
Proof.
  intros Hnd. induction rows as [|[k0 v] rows IH]; intros Hall.
  - unfold sum_of. simpl. induction ks as [|k ks IHk]; simpl; [reflexivity|].
    inversion Hnd; subst. now rewrite IHk.
  - simpl.
    rewrite <- IH by (intros k Hk; apply Hall; now right).
    rewrite (zsum_map_ext
               (fun k => sum_of k ((k0, v) :: rows))
               (fun k => (if (k0 =? k)%string then v else 0) + sum_of k rows)).
    2:{ intros k. unfold sum_of. simpl.
        destruct (k0 =? k)%string; reflexivity. }
    rewrite <- zsum_map_add, (zsum_pick k0 v ks Hnd).
    destruct (in_dec string_dec k0 ks) as [_|Hnin]; [reflexivity|].
    exfalso. apply Hnin, Hall. now left.
Qed.

(** Grouping keeps the grand total. *)
Lemma group_sum_total (rows : list (string * Z)) :
  zsum (map snd (group_sum rows)) = zsum (map snd rows).
Proof.
  unfold group_sum. rewrite map_map. simpl.
  apply zsum_per_key; [apply keys_NoDup|].
  intros k Hk. apply keys_In. now apply has_key_In.
Qed.

Lemma total_select {A : Type} (f : A -> string) (g : A -> Z)
      (cond : A -> bool) (l : list A) :
  zsum (map snd (group_sum (map (fun e => (f e, g e)) (filter cond l))))
  = zsum (map (fun e => if cond e then g e else 0) l).
Proof.
  rewrite group_sum_total, map_map. simpl.
  induction l as [|e l IH]; simpl; [reflexivity|].
  destruct (cond e); simpl; now rewrite IH.
Qed.

Lemma total_map {A : Type} (f : A -> string) (g : A -> Z) (l : list A) :
  zsum (map snd (group_sum (map (fun e => (f e, g e)) l)))
  = zsum (map g l).
Proof.
  rewrite group_sum_total, map_map. reflexivity.
Qed.

Lemma zsum_map_zero {A : Type} (f : A -> Z) (l : list A) :
  (forall x, f x = 0) -> zsum (map f l) = 0.
Proof.
  intros H. induction l as [|x l IH]; simpl; [reflexivity|].
  rewrite H, IH. reflexivity.
Qed.

(** X6.  Transfers and payments only move money: summed over every
    identity and every team, the expected balances and the team balances
    add up to what the counted exchanges brought in (positive amounts, and
    negative amounts less their fees). *)
Theorem transfers_and_payments_conserve_money (c : cursor) :
  zsum (map snd (Balances.foo2 c)) + zsum (map snd (TeamBalances.foo2 c))
  = zsum (map exchange_contribution (exchanges c)).
Proof.
  unfold Balances.foo2, TeamBalances.foo2. rewrite !group_sum_total.
  unfold Balances.foo, TeamBalances.foo, exchanges_credit, exchanges_debit,
    transfers_out, payments_in, payments_out, transfers_in.
  rewrite !map_app, !zsum_app, !total_select, !total_map.
  assert (Hx : zsum (map (fun e => if credit_filter e then x_amount e else 0)
                         (exchanges c))
               + zsum (map (fun e => if debit_filter e
                                     then x_amount e - x_fee e else 0)
                           (exchanges c))
               = zsum (map exchange_contribution (exchanges c))).
  { rewrite zsum_map_add. apply zsum_map_ext. intros e.
    now rewrite exchange_contribution_spec. }
  assert (Ht : zsum (map (fun t => - t_amount t) (transfers c))
               + zsum (map t_amount (transfers c)) = 0).
  { induction (transfers c) as [|t l IH]; simpl; [reflexivity | lia]. }
  assert (Hp : zsum (map (fun p => if to_participant p then pay_amount p
                                   else 0) (payments c))
               + zsum (map (fun p => if to_participant p then - pay_amount p
                                     else 0) (payments c)) = 0).
  { rewrite zsum_map_add. apply zsum_map_zero. intros p.
    destruct (to_participant p); lia. }
  assert (Hq : zsum (map (fun p => if to_team p then - pay_amount p else 0)
                         (payments c))
               + zsum (map (fun p => if to_team p then pay_amount p else 0)
                           (payments c)) = 0).
  { rewrite zsum_map_add. apply zsum_map_zero. intros p.
    destruct (to_team p); lia. }
  lia.
Qed.

(** X7.  Adding an exchange with [amount > 0] adds exactly [amount], the
    fee not being deducted, to its participant's expected balance when its
    status is ['unknown'] or ['succeeded'], and changes no expected balance
    for any other status; a positive exchange still pending is left out
    where a negative one would count. *)
Theorem positive_exchange_counts_when_settled
        (c : cursor) (before after : list exchange) (e : exchange) :
  exchanges c = before ++ after ->
  0 < x_amount e ->
  let c' := with_exchanges c (before ++ e :: after) in
  (x_status e = "unknown" \/ x_status e = "succeeded" ->
   expected c' (x_participant e)
   = Some (match expected c (x_participant e) with
           | Some s => s
           | None => 0
           end + x_amount e))
  /\ (x_status e <> "unknown" -> x_status e <> "succeeded" ->
      forall u, expected c' u = expected c u).
Proof.
  intros Hex Hpos c'. subst c'.
  assert (Hc : with_exchanges c (before ++ after) = c)
    by (rewrite <- Hex; apply ExchangeClaims.with_exchanges_same).
  assert (Hlt : (0 <? x_amount e) = true) by now apply Z.ltb_lt.
  assert (Hneg : (x_amount e <? 0) = false) by (apply Z.ltb_ge; lia).
  split.
  - intros Hst.
    assert (Hs : (x_status e =? "succeeded")%string
                 || (x_status e =? "unknown")%string = true).
    { destruct Hst as [-> | ->]; reflexivity. }
    rewrite !expected_spec, ExchangeClaims.has_events_add_exchange,
      ExchangeClaims.signed_sum_add_exchange, Hc, String.eqb_refl.
    unfold counted, exchange_contribution. rewrite Hlt, Hneg, Hs. simpl.
    rewrite orb_true_r.
    destruct (has_events c (x_participant e)) eqn:Hev; [reflexivity|].
    f_equal.
    assert (Hz : signed_sum c (x_participant e) = 0).
    { rewrite <- sum_of_foo. apply sum_of_no_key. now rewrite has_key_foo. }
    lia.
  - intros Hu Hs u.
    apply String.eqb_neq in Hu. apply String.eqb_neq in Hs.
    rewrite !expected_spec, ExchangeClaims.has_events_add_exchange,
      ExchangeClaims.signed_sum_add_exchange, Hc.
    unfold counted, exchange_contribution. rewrite Hlt, Hneg, Hu, Hs. simpl.
    rewrite andb_false_r, orb_false_r.
    destruct (x_participant e =? u)%string; now rewrite Z.add_0_r.
Qed.

(** A deposit of 100 with a fee of 3, and the same deposit still pending. *)
Lemma positive_exchange_witness :
  expected (with_exchanges empty_cursor
                           ([] ++ mk_exchange "alice" 100 3 "succeeded" :: []))
           "alice" = Some (0 + 100)
  /\ expected (with_exchanges empty_cursor
                              ([] ++ mk_exchange "alice" 100 3 "pending" :: []))
              "alice" = None.
Proof.
  split.
  - refine (proj1 (positive_exchange_counts_when_settled
                     empty_cursor [] [] (mk_exchange "alice" 100 3 "succeeded")
                     eq_refl eq_refl) _).
    right. reflexivity.
  - refine (proj2 (positive_exchange_counts_when_settled
                     empty_cursor [] [] (mk_exchange "alice" 100 3 "pending")
                     eq_refl eq_refl) _ _ "alice"); discriminate.
Defined.

Lemma NoDup_map_filter {A B : Type} (f : A -> B) (g : A -> bool)
      (l : list A) :
  NoDup (map f l) -> NoDup (map f (filter g l)).
Proof.
  induction l as [|x l IH]; simpl; intros Hnd; [constructor|].
  inversion Hnd as [|? ? Hnin Hnd']; subst.
  destruct (g x); simpl; [|now apply IH].
  constructor; [|now apply IH].
  intros Hin. apply Hnin. apply in_map_iff in Hin as [y [Hy Hin]].
  apply filter_In in Hin as [Hin _]. rewrite <- Hy. now apply in_map.
Qed.

Lemma join_usernames_NoDup (rows : list (string * Z))
      (parts : list participant) :
  NoDup (map fst rows) ->
  NoDup (map p_username parts) ->
  NoDup (map (fun r => p_username (snd r))
             (join (fun f p => (p_username p =? fst f)%string) rows parts)).
Proof.
  intros Hrows Hparts. induction rows as [|r rows IH]; simpl;
    [constructor|].
  inversion Hrows as [|? ? Hnin Hnd]; subst.
  rewrite map_app. apply NoDup_app.
  - rewrite map_map. simpl. now apply NoDup_map_filter.
  - now apply IH.
  - intros u Hu Hu'. apply Hnin.
    rewrite map_map in Hu. simpl in Hu.
    apply in_map_iff in Hu as [p [Hpu Hp]].
    apply filter_In in Hp as [_ Hp]. apply String.eqb_eq in Hp.
    apply in_map_iff in Hu' as [[f q] [Hq Hin]]. simpl in Hq.
    apply In_join in Hin as [Hf [_ Hon]]. simpl in Hon.
    apply String.eqb_eq in Hon.
    replace (fst r) with (fst f) by congruence. now apply in_map.
Qed.

(** X8.  With usernames unique, the balance query reports a participant at
    most once, and every row it reports carries a participant's stored
    balance next to an expected balance that differs from it. *)
Theorem balance_rows_once_and_differing (c : cursor) :
  NoDup (map p_username (participants c)) ->
  NoDup (map (fun r => fst (fst r)) (query c))
  /\ forall u e a, In (u, e, a) (query c) ->
                   In (mk_participant u a) (participants c) /\ e <> a.
Proof.
  intros Hnd. split.
  - unfold query. rewrite map_map. simpl.
    apply NoDup_map_filter, join_usernames_NoDup; [|assumption].
    unfold Balances.foo2, group_sum. rewrite map_map. simpl.
    rewrite map_id. apply keys_NoDup.
  - intros u e a Hin. apply In_query in Hin as [[p [Hp [Hu Ha]]] [_ Hne]].
    split; [|assumption]. destruct p; simpl in *; now subst.
Qed.

(** The sample snapshot: one row, for bob. *)
Lemma balance_rows_witness :
  NoDup (map (fun r => fst (fst r)) (query sample)).
Proof.
  refine (proj1 (balance_rows_once_and_differing sample _)).
  repeat constructor; simpl; intuition discriminate.
Defined.

End LedgerExtras.

(** * Utilities *)

(** ** Featured projects *)

Module FeaturedExtras.
  Import Featured.

Lemma NoDup_firstn {A : Type} (n : nat) (l : list A) :
  NoDup l -> NoDup (firstn n l).
Proof.
  intros H. rewrite <- (firstn_skipn n l) in H.
  now apply NoDup_app_remove_r in H.
Qed.

Lemma In_firstn {A : Type} (n : nat) (l : list A) (x : A) :
  In x (firstn n l) -> In x l.
Proof.
  intros H. rewrite <- (firstn_skipn n l). apply in_or_app. now left.
Qed.

Lemma Permutation_filter_length {A : Type} (f : A -> bool) (l l' : list A) :
  Permutation l l' -> List.length (filter f l) = List.length (filter f l').
Proof.
  induction 1 as [|x l l' _ IH|x y l|l l' l'' _ IH1 _ IH2]; simpl.
  - reflexivity.
  - destruct (f x); simpl; now rewrite IH.
  - destruct (f x), (f y); reflexivity.
  - now rewrite IH1.
Qed.

Lemma filter_all {A : Type} (f : A -> bool) (l : list A) :
  (forall x, In x l -> f x = true) -> filter f l = l.
Proof.
  intros H. induction l as [|x l IH]; simpl; [reflexivity|].
  rewrite (H x (or_introl eq_refl)), IH; [reflexivity|].
  intros y Hy. apply H. now right.
Qed.

Lemma filter_none {A : Type} (f : A -> bool) (l : list A) :
  (forall x, In x l -> f x = false) -> filter f l = [].
Proof.
  intros H. induction l as [|x l IH]; simpl; [reflexivity|].
  rewrite (H x (or_introl eq_refl)). apply IH.
  intros y Hy. apply H. now right.
Qed.

Lemma popular_not_unpopular (t : team_row) :
  is_unpopular t = negb (is_popular t).
Proof.
  unfold is_popular, is_unpopular.
  rewrite Z.gtb_ltb, Z.leb_antisym. reflexivity.
Qed.

Lemma eligible_split (teams : list team_row) :
  (List.length (popular teams) + List.length (unpopular teams))%nat
  = List.length (eligible_teams teams).
Proof.
  unfold popular, unpopular.
  rewrite (filter_ext is_unpopular (fun t => negb (is_popular t))
                      popular_not_unpopular).
  apply TipExtras.filter_split_length.
Qed.

Section RandomOrders.

Variables random_popular random_unpopular shuffle
  : list team_row -> list team_row.

Hypothesis random_popular_perm :
  forall l, Permutation l (random_popular l).
Hypothesis random_unpopular_perm :
  forall l, Permutation l (random_unpopular l).
Hypothesis shuffle_perm : forall l, Permutation l (shuffle l).

(** X9.  Whatever the random orders, with the rows of teams distinct the
    function fails on no limit and features as many projects as there are
    eligible teams, up to 10, each an eligible team and none twice.  Of
    seven or more popular eligible teams at least 7 are featured, and with
    three or more unpopular ones besides, exactly 7 popular and 3
    unpopular. *)
Theorem featured_projects_fill_ten (teams : list team_row) :
  NoDup teams ->
  exists featured,
    get_featured_projects random_popular random_unpopular shuffle teams
    = Some featured
    /\ List.length featured
       = Nat.min 10 (List.length (eligible_teams teams))
    /\ NoDup featured
    /\ (forall t, In t featured -> In t (eligible_teams teams))
    /\ ((7 <= List.length (popular teams))%nat ->
        (7 <= List.length (filter is_popular featured))%nat)
    /\ ((7 <= List.length (popular teams))%nat ->
        (3 <= List.length (unpopular teams))%nat ->
        List.length (filter is_popular featured) = 7%nat
        /\ List.length (filter is_unpopular featured) = 3%nat).
Proof.
  intros Hnd.
  assert (Hndp : NoDup (popular teams))
    by (unfold popular, eligible_teams; now repeat apply NoDup_filter).
  assert (Hndu : NoDup (unpopular teams))
    by (unfold unpopular, eligible_teams; now repeat apply NoDup_filter).
  unfold get_featured_projects, counts, limits.
  set (P := List.length (popular teams)).
  set (U := List.length (unpopular teams)).
  set (np := if Z.of_nat P >=? 7 then Z.max 7 (10 - Z.of_nat U)
             else Z.of_nat P).
  set (nu := Z.min (Z.of_nat U) (10 - np)).
  assert (Hnp : 0 <= np) by (subst np; destruct (Z.of_nat P >=? 7); lia).
  assert (Hnp10 : np <= 10).
  { subst np. destruct (Z.geb_spec (Z.of_nat P) 7); lia. }
  assert (Hnu : 0 <= nu) by (subst nu; lia).
  unfold limit.
  destruct (Z.ltb_spec np 0) as [|_]; [lia|].
  destruct (Z.ltb_spec nu 0) as [|_]; [lia|].
  set (a := firstn (Z.to_nat np) (random_popular (popular teams))).
  set (b := firstn (Z.to_nat nu) (random_unpopular (unpopular teams))).
  assert (Ha : forall t, In t a -> In t (popular teams)).
  { intros t Ht. apply In_firstn in Ht.
    apply Permutation_in with (random_popular (popular teams));
      [apply Permutation_sym, random_popular_perm | assumption]. }
  assert (Hb : forall t, In t b -> In t (unpopular teams)).
  { intros t Ht. apply In_firstn in Ht.
    apply Permutation_in with (random_unpopular (unpopular teams));
      [apply Permutation_sym, random_unpopular_perm | assumption]. }
  assert (Hap : forall t, In t a -> is_popular t = true).
  { intros t Ht. apply Ha in Ht. unfold popular in Ht.
    apply filter_In in Ht. tauto. }
  assert (Hbu : forall t, In t b -> is_unpopular t = true).
  { intros t Ht. apply Hb in Ht. unfold unpopular in Ht.
    apply filter_In in Ht. tauto. }
  assert (Hnda : NoDup a).
  { apply NoDup_firstn.
    apply Permutation_NoDup with (popular teams);
      [apply random_popular_perm | assumption]. }
  assert (Hndb : NoDup b).
  { apply NoDup_firstn.
    apply Permutation_NoDup with (unpopular teams);
      [apply random_unpopular_perm | assumption]. }
  assert (Hndab : NoDup (a ++ b)).
  { apply NoDup_app; try assumption.
    intros t Hta Htb. apply Hap in Hta. apply Hbu in Htb.
    rewrite popular_not_unpopular, Hta in Htb. discriminate. }
  rewrite (nodup_fixed_point team_row_dec Hndab).
  assert (Hla : List.length a = Nat.min (Z.to_nat np) P).
  { subst a. rewrite length_firstn.
    now rewrite <- (Permutation_length (random_popular_perm _)). }
  assert (Hlb : List.length b = Nat.min (Z.to_nat nu) U).
  { subst b. rewrite length_firstn.
    now rewrite <- (Permutation_length (random_unpopular_perm _)). }
  assert (Hfa : List.length (filter is_popular (shuffle (a ++ b)))
                = List.length a).
  { rewrite <- (Permutation_filter_length _ _ _ (shuffle_perm _)).
    rewrite filter_app, (filter_all _ a Hap), (filter_none _ b).
    - now rewrite app_nil_r.
    - intros t Ht. apply Hbu in Ht. rewrite popular_not_unpopular in Ht.
      now apply negb_true_iff in Ht. }
  assert (Hfb : List.length (filter is_unpopular (shuffle (a ++ b)))
                = List.length b).
  { rewrite <- (Permutation_filter_length _ _ _ (shuffle_perm _)).
    rewrite filter_app, (filter_all _ b Hbu), (filter_none _ a).
    - reflexivity.
    - intros t Ht. apply Hap in Ht. rewrite popular_not_unpopular, Ht.
      reflexivity. }
  exists (shuffle (a ++ b)). split; [reflexivity|].
  pose proof (eligible_split teams) as Hsplit. fold P U in Hsplit.
  assert (Hcases : np = Z.of_nat P /\ (P < 7)%nat
                   \/ np = Z.max 7 (10 - Z.of_nat U) /\ (7 <= P)%nat).
  { subst np. destruct (Z.geb_spec (Z.of_nat P) 7); [right | left]; lia. }
  repeat split.
  - rewrite <- (Permutation_length (shuffle_perm _)), length_app, Hla, Hlb,
      <- Hsplit.
    subst nu. lia.
  - apply Permutation_NoDup with (a ++ b); [apply shuffle_perm | assumption].
  - intros t Ht.
    apply Permutation_in with (l' := a ++ b) in Ht;
      [|apply Permutation_sym, shuffle_perm].
    apply in_app_or in Ht as [Ht|Ht].
    + apply Ha in Ht. unfold popular in Ht. apply filter_In in Ht. tauto.
    + apply Hb in Ht. unfold unpopular in Ht. apply filter_In in Ht. tauto.
  - intros HP. rewrite Hfa, Hla. lia.
  - rewrite Hfa, Hla. lia.
  - rewrite Hfb, Hlb. subst nu. lia.
Qed.

End RandomOrders.

(** Eight popular and four unpopular teams, the random orders being the
    order of the table and its reverse. *)
Lemma featured_projects_witness :
  let row := fun (s : string) (n : Z) => mk_team_row s false true n in
  let teams :=
    [row "a" 9; row "b" 8; row "c" 7; row "d" 6; row "e" 10; row "f" 11;
     row "g" 12; row "h" 13; row "i" 0; row "j" 1; row "k" 2; row "l" 3] in
  exists featured,
    get_featured_projects (fun l => l) (@rev team_row) (fun l => l) teams
    = Some featured
    /\ List.length (filter is_popular featured) = 7%nat
    /\ List.length (filter is_unpopular featured) = 3%nat.
Proof.
  intros row teams.
  assert (Hnd : NoDup teams).
  { repeat constructor; simpl; intuition discriminate. }
  destruct (featured_projects_fill_ten
              (fun l => l) (@rev team_row) (fun l => l)
              (fun l => Permutation_refl l) (@Permutation_rev team_row)
              (fun l => Permutation_refl l) teams Hnd)
    as [featured [Hf [_ [_ [_ [_ H73]]]]]].
  exists featured. split; [exact Hf|].
  apply H73; vm_compute; lia.
Defined.

End FeaturedExtras.

(** ** Truncating text *)

Module TruncateExtras.
  Import Truncate.

Section Chars.

Variable char : Type.
Variable char_dec : forall a b : char, {a = b} + {a <> b}.
Variable space : char.
Variable isspace : char -> bool.

Local Abbreviation rstrip := (rstrip isspace).
Local Abbreviation rsplit_head := (rsplit_head char_dec space).
Local Abbreviation is_space := (is_space char_dec space).
Local Abbreviation cut := (cut char_dec space isspace).
Local Abbreviation truncate_bare := (truncate_bare char_dec space isspace).
Local Abbreviation truncate := (truncate char_dec space isspace).

Lemma drop_while_split (f : char -> bool) (s : list char) :
  exists ws, s = ws ++ drop_while f s /\ Forall (fun c => f c = true) ws
             /\ (forall c rest, drop_while f s = c :: rest -> f c = false).
Proof.
  induction s as [|c s [ws [Hs [Hws Hhd]]]]; simpl.
  - exists []. repeat split; [constructor | discriminate].
  - destruct (f c) eqn:Hc.
    + exists (c :: ws). simpl. repeat split.
      * now rewrite <- Hs.
      * now constructor.
      * exact Hhd.
    + exists []. simpl. repeat split; [constructor|].
      intros c' rest Heq. inversion Heq; subst. exact Hc.
Qed.

(** [rstrip] removes a run of whitespace from the end and nothing else. *)
Lemma rstrip_split (s : list char) :
  exists ws, s = rstrip s ++ ws /\ Forall (fun c => isspace c = true) ws.
Proof.
  unfold Truncate.rstrip.
  destruct (drop_while_split isspace (rev s)) as [ws [Hs [Hws _]]].
  exists (rev ws). split.
  - rewrite <- rev_app_distr, <- Hs, rev_involutive. reflexivity.
  - apply Forall_rev. exact Hws.
Qed.

Lemma rstrip_last (s : list char) (c : char) :
  last_char (rstrip s) = Some c -> isspace c = false.
Proof.
  unfold Truncate.rstrip, last_char. rewrite rev_involutive.
  destruct (drop_while_split isspace (rev s)) as [_ [_ [_ Hhd]]].
  destruct (drop_while isspace (rev s)) as [|d rest] eqn:Hd; [discriminate|].
  intros Heq. inversion Heq; subst. now apply (Hhd c rest).
Qed.

Lemma is_space_true (c : char) : is_space c = true <-> c = space.
Proof.
  unfold Truncate.is_space. destruct (char_dec c space); split;
    congruence.
Qed.

(** [rsplit_head] keeps what precedes the last space. *)
Lemma rsplit_head_split (s : list char) :
  (existsb is_space s = false /\ rsplit_head s = s)
  \/ exists tail, s = rsplit_head s ++ space :: tail.
Proof.
  induction s as [|c s IH]; simpl.
  - left. auto.
  - destruct (is_space c) eqn:Hc; simpl.
    + right. apply is_space_true in Hc. subst c.
      destruct (existsb is_space s) eqn:Hs; simpl.
      * destruct IH as [[Hno _]|[tail Htail]]; [congruence|].
        exists tail. now rewrite <- Htail.
      * now exists s.
    + destruct IH as [[Hno Heq]|[tail Htail]].
      * left. now rewrite Heq.
      * right. exists tail. now rewrite <- Htail.
Qed.

Lemma existsb_is_space_false (s : list char) :
  existsb is_space s = false -> forall c, In c s -> c <> space.
Proof.
  intros H c Hc Heq.
  assert (Ht : existsb is_space s = true).
  { apply existsb_exists. exists c. split; [assumption|].
    now apply is_space_true. }
  congruence.
Qed.

Lemma skipn_nth_error (n : nat) (s : list char) (c : char) :
  nth_error s n = Some c -> skipn n s = c :: skipn (S n) s.
Proof.
  revert s. induction n as [|n IH]; intros [|d s]; simpl; try discriminate.
  - intros Heq. now inversion Heq.
  - intros Heq. now apply IH.
Qed.

(** [s[-1]] is the last character. *)
Lemma index_last (s : list char) : index s (-1) = last_char s.
Proof.
  unfold index, last_char. simpl (0 <=? -1).
  destruct s as [|c s] using rev_ind.
  - reflexivity.
  - rewrite rev_app_distr, length_app. simpl.
    destruct (Z.leb_spec 0 (Z.of_nat (List.length s + 1) + -1)); [|lia].
    replace (Z.to_nat (Z.of_nat (List.length s + 1) + -1))
      with (List.length s) by lia.
    rewrite nth_error_app2 by lia. now rewrite Nat.sub_diag.
Qed.

Lemma last_char_nonempty (s : list char) :
  s <> [] -> exists c, last_char s = Some c.
Proof.
  unfold last_char. destruct s as [|c s] using rev_ind; [contradiction|].
  intros _. rewrite rev_app_distr. simpl. now exists c.
Qed.

Lemma nth_error_in_range (s : list char) (n : nat) :
  (n < List.length s)%nat -> exists c, nth_error s n = Some c.
Proof.
  intros H. destruct (nth_error s n) as [c|] eqn:Hn; [now exists c|].
  apply nth_error_None in Hn. lia.
Qed.

(** With a target that is a position inside the text, the cut raises
    nothing and keeps a prefix of the text of at most [target] characters;
    the prefix is followed by whitespace unless it is all that fits and holds
    no space. *)
Lemma cut_returns (text : list char) (target : Z) :
  0 <= target -> target < Z.of_nat (List.length text) ->
  exists kept rest,
    cut text target = inr kept
    /\ text = kept ++ rest
    /\ (List.length kept <= Z.to_nat target)%nat
    /\ (isspace space = true ->
        (exists c rest', rest = c :: rest' /\ isspace c = true)
        \/ (kept = firstn (Z.to_nat target) text
            /\ forall c, In c kept -> c <> space)).
Proof.
  intros H0 Hlt. unfold Truncate.cut, slice_to.
  destruct (Z.leb_spec 0 target) as [_|]; [|lia].
  set (n := Z.to_nat target).
  pose proof (firstn_skipn n text) as Hsplit.
  assert (Hlen : List.length (firstn n text) = n)
    by (apply firstn_length_le; lia).
  destruct (Z.eqb_spec target 0) as [Hz|Hnz].
  - assert (Hn : n = 0%nat) by lia. rewrite Hn. simpl.
    exists [], text. split; [reflexivity|]. split; [reflexivity|].
    split; [simpl; lia|].
    intros _. right. split; [reflexivity | intros c []].
  - rewrite index_last.
    destruct (last_char_nonempty (firstn n text)) as [a Ha].
    { intros Hnil. rewrite Hnil in Hlen. simpl in Hlen. lia. }
    rewrite Ha. unfold index.
    destruct (Z.leb_spec 0 target) as [_|]; [|lia]. fold n.
    destruct (nth_error_in_range text n) as [b Hb]; [lia|].
    rewrite Hb.
    destruct (is_space a || is_space b) eqn:Hclean.
    + destruct (rstrip_split (firstn n text)) as [ws [Hws Hall]].
      exists (rstrip (firstn n text)), (ws ++ skipn n text).
      split; [reflexivity|]. split; [now rewrite app_assoc, <- Hws|].
      split; [rewrite Hws, length_app in Hlen; lia|].
      intros Hspace. left. destruct ws as [|w ws].
      * rewrite app_nil_r in Hws. simpl.
        apply orb_true_iff in Hclean as [Hlast|Hnext].
        -- apply is_space_true in Hlast. subst a.
           rewrite Hws in Ha. apply rstrip_last in Ha. congruence.
        -- apply is_space_true in Hnext. subst b.
           exists space, (skipn (S n) text).
           split; [now apply skipn_nth_error | assumption].
      * exists w, (ws ++ skipn n text). split; [reflexivity|].
        now inversion Hall.
    + destruct (rsplit_head_split (firstn n text))
        as [[Hno Heq]|[tail Htail]].
      * exists (rsplit_head (firstn n text)), (skipn n text).
        split; [reflexivity|]. rewrite Heq.
        split; [now symmetry|]. split; [lia|].
        intros _. right. split; [reflexivity|].
        now apply existsb_is_space_false.
      * exists (rsplit_head (firstn n text)),
               ((space :: tail) ++ skipn n text).
        split; [reflexivity|].
        split; [now rewrite app_assoc, <- Htail|].
        split; [rewrite Htail, length_app in Hlen; lia|].
        intros Hspace. left. exists space, (tail ++ skipn n text). auto.
Qed.

(** With a negative target, the cut raises exactly when the target reaches
    back to the start of the text or beyond. *)
Lemma cut_negative (text : list char) (target : Z) :
  target < 0 ->
  (Z.of_nat (List.length text) + target <= 0 ->
   cut text target = inl index_out_of_range)
  /\ (0 < Z.of_nat (List.length text) + target ->
      exists kept, cut text target = inr kept).
Proof.
  intros Hneg. unfold Truncate.cut, slice_to.
  destruct (Z.leb_spec 0 target) as [|_]; [lia|].
  destruct (Z.eqb_spec target 0) as [|_]; [lia|].
  split.
  - intros Hle.
    replace (Z.to_nat (Z.of_nat (List.length text) + target)) with 0%nat
      by lia.
    reflexivity.
  - intros Hpos.
    set (m := Z.to_nat (Z.of_nat (List.length text) + target)).
    assert (Hlen : List.length (firstn m text) = m)
      by (apply firstn_length_le; lia).
    rewrite index_last.
    destruct (last_char_nonempty (firstn m text)) as [a Ha].
    { intros Hnil. rewrite Hnil in Hlen. simpl in Hlen. lia. }
    rewrite Ha. unfold index.
    destruct (Z.leb_spec 0 target) as [|_]; [lia|].
    destruct (Z.leb_spec 0 (Z.of_nat (List.length text) + target)) as [_|];
      [|lia].
    fold m. destruct (nth_error_in_range text m) as [b Hb]; [lia|].
    rewrite Hb. destruct (is_space a || is_space b); eauto.
Qed.

(** X10.  With a target that is not negative, or with a non-empty
    [append], [truncate] raises nothing: a text that fits comes back
    unchanged, and a longer one comes back as a prefix of itself of at most
    [max(target - len(append), 0)] characters followed by [append], so the
    result is never longer than [target], or than [append] when that
    alone is longer.  The call raises [IndexError] exactly when [append]
    is empty and the target is negative and reaches back to the start of
    the text or beyond. *)
Theorem truncate_prefix_and_length
        (text : list char) (target : Z) (append : list char) :
  (0 <= target \/ append <> [] ->
   exists result,
     truncate text target append = inr result
     /\ (Z.of_nat (List.length text) <= target -> result = text)
     /\ (target < Z.of_nat (List.length text) ->
         exists kept rest,
           result = kept ++ append
           /\ text = kept ++ rest
           /\ Z.of_nat (List.length kept)
              <= Z.max (target - Z.of_nat (List.length append)) 0)
     /\ Z.of_nat (List.length result)
        <= Z.max target (Z.of_nat (List.length append)))
  /\ (truncate text target append = inl index_out_of_range
      <-> append = [] /\ target < 0
          /\ Z.of_nat (List.length text) + target <= 0).
Proof.
  unfold Truncate.truncate.
  destruct (Z.leb_spec (Z.of_nat (List.length text)) target) as [Hfit|Hlong].
  { split.
    - intros _. exists text. repeat split; lia.
    - split; [discriminate | lia]. }
  destruct append as [|a append].
  - destruct (Z.lt_ge_cases target 0) as [Hneg|Hpos].
    + destruct (cut_negative text target Hneg) as [Hraise Hret]. split.
      * intros [|Hne]; [lia | contradiction].
      * split.
        -- intros Hcut.
           destruct (Z.le_gt_cases (Z.of_nat (List.length text) + target) 0)
             as [Hle|Hgt]; [auto|].
           destruct (Hret Hgt) as [kept Hk]. congruence.
        -- intros [_ [_ Hle]]. now apply Hraise.
    + destruct (cut_returns text target Hpos Hlong)
        as [kept [rest [Hcut [Htext [Hlen _]]]]].
      rewrite Hcut. split.
      * intros _. exists kept. split; [reflexivity|].
        split; [lia|]. split.
        -- intros _. exists kept, rest. rewrite app_nil_r. simpl.
           repeat split; [assumption | lia].
        -- simpl. lia.
      * split; [discriminate | lia].
  - set (la := Z.of_nat (List.length (a :: append))).
    assert (Hla : 0 < la) by (subst la; simpl; lia).
    unfold Truncate.truncate_bare.
    assert (Hinner :
              exists kept rest,
                (if Z.of_nat (List.length text) <=? Z.max (target - la) 0
                 then inr text else cut text (Z.max (target - la) 0))
                = inr kept
                /\ text = kept ++ rest
                /\ Z.of_nat (List.length kept) <= Z.max (target - la) 0).
    { destruct (Z.leb_spec (Z.of_nat (List.length text))
                           (Z.max (target - la) 0)) as [Hf|Hl].
      - exists text, []. rewrite app_nil_r. auto.
      - destruct (cut_returns text (Z.max (target - la) 0))
          as [kept [rest [Hcut [Htext [Hlen _]]]]]; [lia | lia |].
        exists kept, rest. repeat split; [assumption | assumption | lia]. }
    destruct Hinner as [kept [rest [Hcut [Htext Hlen]]]].
    fold la. rewrite Hcut. split.
    + intros _. exists (kept ++ a :: append). split; [reflexivity|].
      split; [lia|]. split.
      * intros _. now exists kept, rest.
      * rewrite length_app. fold la.
        change (Z.of_nat (List.length (a :: append))) with la. lia.
    + split; [discriminate|]. intros [Hnil _]. discriminate.
Qed.

(** X11.  Truncating what was already truncated changes nothing, as long
    as [append] is no longer than [target]. *)
Theorem truncate_idempotent
        (text : list char) (target : Z) (append : list char) :
  Z.of_nat (List.length append) <= target ->
  exists result,
    truncate text target append = inr result
    /\ truncate result target append = inr result.
Proof.
  intros Happ.
  destruct (proj1 (truncate_prefix_and_length text target append))
    as [result [Hres [_ [_ Hlen]]]]; [left; lia|].
  exists result. split; [exact Hres|].
  destruct (proj1 (truncate_prefix_and_length result target append))
    as [again [Hagain [Hfit _]]]; [left; lia|].
  rewrite Hagain. f_equal. apply Hfit. lia.
Qed.

(** X12.  With a target that is not negative, or with a non-empty
    [append]: where a text is cut, the character that follows the kept
    prefix is whitespace, so no word is split, unless the characters that
    fit hold no space at all: then all of them are kept. *)
Theorem truncate_breaks_at_whitespace
        (text : list char) (target : Z) (append : list char) :
  isspace space = true ->
  0 <= target \/ append <> [] ->
  target < Z.of_nat (List.length text) ->
  exists kept rest,
    truncate text target append = inr (kept ++ append)
    /\ text = kept ++ rest
    /\ ((exists c rest', rest = c :: rest' /\ isspace c = true)
        \/ (kept
            = firstn (Z.to_nat (target - Z.of_nat (List.length append))) text
            /\ forall c, In c kept -> c <> space)).
Proof.
  intros Hspace Hpre Hlt. unfold Truncate.truncate.
  destruct (Z.leb_spec (Z.of_nat (List.length text)) target) as [|_]; [lia|].
  destruct append as [|a append].
  - destruct Hpre as [Hpos|Hne]; [|contradiction].
    destruct (cut_returns text target Hpos Hlt)
      as [kept [rest [Hcut [Htext [_ Hb]]]]].
    exists kept, rest. rewrite app_nil_r, Hcut. simpl.
    rewrite Z.sub_0_r. auto.
  - set (la := Z.of_nat (List.length (a :: append))).
    assert (Hla : 0 < la) by (subst la; simpl; lia).
    unfold Truncate.truncate_bare.
    destruct (Z.leb_spec (Z.of_nat (List.length text))
                         (Z.max (target - la) 0)) as [Hf|Hl].
    + assert (Hnil : text = []) by (destruct text; [reflexivity | simpl in *; lia]).
      exists [], []. subst text. simpl. repeat split.
      right. split; [now rewrite firstn_nil | intros c []].
    + destruct (cut_returns text (Z.max (target - la) 0))
        as [kept [rest [Hcut [Htext [_ Hb]]]]]; [lia | lia |].
      rewrite Hcut. exists kept, rest. repeat split; [assumption|].
      destruct (Hb Hspace) as [Hnext|[Hkept Hno]]; [now left|].
      right. split; [|assumption].
      rewrite Hkept. f_equal. lia.
Qed.

End Chars.

(** Byte strings: the space is the only whitespace looked at. *)
Example truncate_inside_word :
  truncate ascii_dec " "%char (fun c => Ascii.eqb c " ")
           (list_ascii_of_string "hello world") 8 []
  = inr (list_ascii_of_string "hello").
Proof. reflexivity. Qed.

Example truncate_before_space :
  truncate ascii_dec " "%char (fun c => Ascii.eqb c " ")
           (list_ascii_of_string "hello world") 5 []
  = inr (list_ascii_of_string "hello").
Proof. reflexivity. Qed.

Example truncate_after_space :
  truncate ascii_dec " "%char (fun c => Ascii.eqb c " ")
           (list_ascii_of_string "hello world") 6 []
  = inr (list_ascii_of_string "hello").
Proof. reflexivity. Qed.

Example truncate_with_marker :
  truncate ascii_dec " "%char (fun c => Ascii.eqb c " ")
           (list_ascii_of_string "hello world") 8
           (list_ascii_of_string " ~")
  = inr (list_ascii_of_string "hello ~").
Proof. reflexivity. Qed.

Example truncate_long_word :
  truncate ascii_dec " "%char (fun c => Ascii.eqb c " ")
           (list_ascii_of_string "helloworld") 4 []
  = inr (list_ascii_of_string "hell").
Proof. reflexivity. Qed.

Example truncate_no_room :
  truncate ascii_dec " "%char (fun c => Ascii.eqb c " ")
           (list_ascii_of_string "hello world") 1
           (list_ascii_of_string " ~")
  = inr (list_ascii_of_string " ~").
Proof. reflexivity. Qed.

Example truncate_negative_target :
  truncate ascii_dec " "%char (fun c => Ascii.eqb c " ")
           (list_ascii_of_string "hello world") (-1) []
  = inr (list_ascii_of_string "hello").
Proof. reflexivity. Qed.

Example truncate_negative_target_raises :
  truncate ascii_dec " "%char (fun c => Ascii.eqb c " ")
           (list_ascii_of_string "ab") (-5) []
  = inl index_out_of_range.
Proof. reflexivity. Qed.

Example truncate_negative_target_with_marker :
  truncate ascii_dec " "%char (fun c => Ascii.eqb c " ")
           (list_ascii_of_string "ab") (-5) (list_ascii_of_string " ~")
  = inr (list_ascii_of_string " ~").
Proof. reflexivity. Qed.

Lemma truncate_prefix_and_length_witness :
  exists result,
    truncate ascii_dec " "%char (fun c => Ascii.eqb c " ")
             (list_ascii_of_string "hello world") 8
             (list_ascii_of_string " ~")
    = inr result
    /\ Z.of_nat (List.length result) <= 8.
Proof.
  destruct (proj1 (truncate_prefix_and_length
                     ascii ascii_dec " "%char (fun c => Ascii.eqb c " ")
                     (list_ascii_of_string "hello world") 8
                     (list_ascii_of_string " ~")))
    as [result [Hres [_ [_ Hlen]]]].
  - left. lia.
  - exists result. split; [exact Hres | exact Hlen].
Defined.

Lemma truncate_idempotent_witness :
  let t := truncate ascii_dec " "%char (fun c => Ascii.eqb c " ") in
  exists result,
    t (list_ascii_of_string "hello world") 8 (list_ascii_of_string " ~")
    = inr result
    /\ t result 8 (list_ascii_of_string " ~") = inr result.
Proof.
  intros t.
  refine (truncate_idempotent ascii ascii_dec " "%char
            (fun c => Ascii.eqb c " ")
            (list_ascii_of_string "hello world") 8
            (list_ascii_of_string " ~") _).
  simpl. lia.
Defined.

Lemma truncate_breaks_at_whitespace_witness :
  exists kept rest,
    truncate ascii_dec " "%char (fun c => Ascii.eqb c " ")
             (list_ascii_of_string "hello world") 8 []
    = inr (kept ++ [])
    /\ list_ascii_of_string "hello world" = kept ++ rest
    /\ ((exists c rest', rest = c :: rest' /\ Ascii.eqb c " " = true)
        \/ (kept = firstn (Z.to_nat (8 - Z.of_nat 0))
                          (list_ascii_of_string "hello world")
            /\ forall c, In c kept -> c <> " "%char)).
Proof.
  refine (truncate_breaks_at_whitespace ascii ascii_dec " "%char
            (fun c => Ascii.eqb c " ")
            (list_ascii_of_string "hello world") 8 [] eq_refl _ _).
  - left. lia.
  - simpl. lia.
Defined.

End TruncateExtras.

(** ** Byte strings *)

Module StrFacts.
  Import Str.

Lemma prefix_app (p s : string) : String.prefix p (p ++ s)%string = true.
Proof.
  induction p as [|c p IH]; simpl.
  - now destruct s.
  - destruct (ascii_dec c c); [exact IH | contradiction].
Qed.

Lemma prefix_split (p s : string) :
  String.prefix p s = true -> s = (p ++ drop (String.length p) s)%string.
Proof.
  revert s. induction p as [|c p IH]; intros s H; simpl.
  - reflexivity.
  - destruct s as [|d s]; simpl in H; [discriminate|].
    destruct (ascii_dec c d) as [->|]; [|discriminate].
    simpl. f_equal. now apply IH.
Qed.

Lemma drop_app (p s : string) : drop (String.length p) (p ++ s)%string = s.
Proof.
  induction p as [|c p IH]; simpl; [reflexivity | exact IH].
Qed.

Lemma length_append (a b : string) :
  String.length (a ++ b)%string = (String.length a + String.length b)%nat.
Proof.
  induction a as [|c a IH]; simpl; [reflexivity | now rewrite IH].
Qed.

Lemma append_assoc (a b c : string) :
  ((a ++ b) ++ c)%string = (a ++ b ++ c)%string.
Proof.
  induction a as [|x a IH]; simpl; [reflexivity | now rewrite IH].
Qed.

End StrFacts.

(** ** Rewriting participant URLs *)

Module MungeExtras.
  Import Str StrFacts Munge.

(** What a redirect sends the client to: the path, then the query string
    when there is one. *)
Lemma redirect_target (r : request) (url_prefix fs_prefix : string) :
  startswith (path_raw r) fs_prefix = true ->
  _munge r url_prefix fs_prefix
  = redirect ((url_prefix ++ drop (String.length fs_prefix) (path_raw r))
                ++ (if truthy (qs_raw r) then "?" ++ qs_raw r else EmptyString))%string.
Proof.
  intros H. unfold _munge. rewrite H.
  destruct (truthy (qs_raw r)); f_equal.
  induction (url_prefix ++ drop (String.length fs_prefix) (path_raw r))%string
    as [|c s IH]; simpl; [reflexivity | now rewrite <- IH].
Qed.

(** X13.  A request for the URL form of a path is rewritten to the
    filesystem form, and a request made directly for that filesystem form
    is redirected back to the very path (and query string) the first
    request came with. *)
Theorem munge_rewrite_then_redirect_round_trip
        (r : request) (url_prefix fs_prefix : string) :
  startswith (path_raw r) fs_prefix = false ->
  startswith (path_raw r) url_prefix = true ->
  exists r',
    _munge r url_prefix fs_prefix = dispatch r'
    /\ startswith (path_raw r') fs_prefix = true
    /\ qs_raw r' = qs_raw r
    /\ _munge r' url_prefix fs_prefix
       = redirect (path_raw r
                     ++ (if truthy (qs_raw r) then "?" ++ qs_raw r else EmptyString))%string.
Proof.
  intros Hfs Hurl. unfold _munge at 1. rewrite Hfs, Hurl.
  eexists. split; [reflexivity|]. simpl.
  split; [apply prefix_app|]. split; [reflexivity|].
  rewrite redirect_target by apply prefix_app. simpl.
  rewrite drop_app. unfold startswith in Hurl.
  now rewrite <- (prefix_split _ _ Hurl).
Qed.

(** A profile page asked for with a query string. *)
Lemma munge_round_trip_witness :
  exists r',
    _munge (mk_request "/~alice/" "tab=tips") "/~" "/~/" = dispatch r'
    /\ startswith (path_raw r') "/~/" = true
    /\ qs_raw r' = "tab=tips"
    /\ _munge r' "/~" "/~/" = redirect "/~alice/?tab=tips".
Proof.
  exact (munge_rewrite_then_redirect_round_trip
           (mk_request "/~alice/" "tab=tips") "/~" "/~/" eq_refl eq_refl).
Defined.

(** X14.  [use_tildes_for_participants] leaves alone every path that does
    not begin with [/~], and each redirect it issues goes to a path one
    character shorter than the one requested: a chain of such redirects
    ends. *)
Theorem use_tildes_redirects_shorten (r : request) :
  (startswith (path_raw r) "/~" = false ->
   use_tildes_for_participants r = dispatch r)
  /\ (forall to, use_tildes_for_participants r = redirect to ->
        exists path,
          to = (path ++ (if truthy (qs_raw r) then "?" ++ qs_raw r else EmptyString))%string
          /\ S (String.length path) = String.length (path_raw r)
          /\ startswith path "/~" = true).
Proof.
  unfold use_tildes_for_participants. split.
  - intros H. unfold _munge.
    destruct (startswith (path_raw r) "/~/") eqn:Hfs.
    + unfold startswith in *. apply prefix_split in Hfs.
      rewrite Hfs in H. simpl in H. discriminate.
    + now rewrite H.
  - intros to Hto.
    destruct (startswith (path_raw r) "/~/") eqn:Hfs.
    + rewrite (redirect_target _ _ _ Hfs) in Hto.
      injection Hto as Hto.
      assert (Hto' : to = (("/~" ++ drop (String.length "/~/") (path_raw r))
                            ++ (if truthy (qs_raw r) then "?" ++ qs_raw r
                                else EmptyString))%string)
        by (rewrite <- Hto; reflexivity).
      unfold startswith in Hfs. apply prefix_split in Hfs.
      remember (drop (String.length "/~/") (path_raw r)) as d eqn:Hd.
      exists ("/~" ++ d)%string. split; [exact Hto'|].
      rewrite Hfs. split; [reflexivity | apply prefix_app].
    + unfold _munge in Hto. rewrite Hfs in Hto.
      destruct (startswith (path_raw r) "/~"); discriminate.
Qed.

Lemma use_tildes_witness :
  exists path,
    "/~alice/" = (path ++ EmptyString)%string
    /\ S (String.length path) = String.length "/~/alice/"
    /\ startswith path "/~" = true.
Proof.
  exact (proj2 (use_tildes_redirects_shorten (mk_request "/~/alice/" EmptyString))
               "/~alice/" eq_refl).
Defined.

End MungeExtras.

(** ** Escaping for a script element *)

Module ToJavascriptExtras.
  Import Str StrFacts ToJavascript.

Lemma has_close_tag_occurs (s : string) :
  has_close_tag s = true <-> exists a b, s = (a ++ "</" ++ b)%string.
Proof.
  induction s as [|c s IH]; simpl.
  - split; [discriminate|]. intros [[|x a] [b H]]; discriminate.
  - rewrite orb_true_iff, andb_true_iff, IH. split.
    + intros [[Hc Hs]|[a [b H]]].
      * apply Ascii.eqb_eq in Hc. subst c.
        destruct s as [|d s]; simpl in Hs; [discriminate|].
        apply Ascii.eqb_eq in Hs. subst d. now exists EmptyString, s.
      * exists (String c a), b. simpl. now rewrite H.
    + intros [[|x a] [b H]]; simpl in H; inversion H; subst.
      * left. auto.
      * right. now exists a, b.
Qed.

Lemma prefix_close_tag (c : ascii) (s : string) :
  String.prefix "</" (String c s) = Ascii.eqb c "<" && starts_with_slash s.
Proof.
  destruct (Ascii.eqb_spec c "<") as [->|Hc].
  - destruct s as [|d s]; [reflexivity|]. cbn [starts_with_slash andb].
    destruct (Ascii.eqb_spec d "/") as [->|Hd].
    + change (String "<" (String "/" s)) with ("</" ++ s)%string.
      apply prefix_app.
    + cbn [String.prefix].
      destruct (ascii_dec "<" "<"); [|contradiction].
      destruct (ascii_dec "/" d); [congruence | reflexivity].
  - cbn [String.prefix].
    destruct (ascii_dec "<" c); [congruence | reflexivity].
Qed.

(** One step of the replacement of ["</"]. *)
Lemma replace_step (c : ascii) (s : string) :
  replace_from "</" "<\/" 0 (String c s)
  = if Ascii.eqb c "<" && starts_with_slash s
    then ("<\/" ++ replace_from "</" "<\/" 1 s)%string
    else String c (replace_from "</" "<\/" 0 s).
Proof.
  rewrite <- prefix_close_tag. reflexivity.
Qed.

Lemma replace_head (s : string) :
  starts_with_slash (replace_from "</" "<\/" 0 s) = true ->
  starts_with_slash s = true.
Proof.
  destruct s as [|c s]; [auto|]. rewrite replace_step.
  destruct (Ascii.eqb_spec c "<") as [->|Hc]; simpl.
  - destruct (starts_with_slash s); simpl; discriminate.
  - auto.
Qed.

Lemma replace_from_no_close_tag (k : nat) (s : string) :
  has_close_tag (replace_from "</" "<\/" k s) = false.
Proof.
  revert k. induction s as [|c s IH]; intros k; [reflexivity|].
  destruct k as [|k]; [|apply IH].
  rewrite replace_step.
  destruct (Ascii.eqb c "<" && starts_with_slash s) eqn:Hm.
  - simpl. apply IH.
  - cbn [has_close_tag]. rewrite (IH 0%nat), orb_false_r.
    destruct (Ascii.eqb c "<") eqn:Hc; [|reflexivity].
    simpl in Hm. simpl.
    destruct (starts_with_slash (replace_from "</" "<\/" 0 s)) eqn:Hs;
      [|reflexivity].
    apply replace_head in Hs. congruence.
Qed.

(** X15.  Whatever the dumped object, the string injected into the script
    element holds no ["</"], so it cannot close the element early. *)
Theorem to_javascript_never_closes_script (dumped : string) :
  forall a b, to_javascript dumped <> (a ++ "</" ++ b)%string.
Proof.
  intros a b H.
  assert (Ht : has_close_tag (to_javascript dumped) = true)
    by (apply has_close_tag_occurs; now exists a, b).
  unfold to_javascript, replace in Ht.
  rewrite replace_from_no_close_tag in Ht. discriminate.
Qed.

Example to_javascript_script_tag :
  to_javascript "</script><script>alert(1)</script>"
  = "<\/script><script>alert(1)<\/script>".
Proof. reflexivity. Qed.

Example to_javascript_overlap : to_javascript "<</</<" = "<<\/<\/<".
Proof. reflexivity. Qed.

End ToJavascriptExtras.

(** ** Canonical participant URLs *)

Module CanonicalExtras.
  Import Str StrFacts Canonical.

Lemma truthy_or_empty (s : string) :
  (if truthy s then s else EmptyString) = s.
Proof. now destruct s. Qed.

Lemma ascii_lower_app (a b : string) :
  ascii_lower (a ++ b)%string = (ascii_lower a ++ ascii_lower b)%string.
Proof.
  induction a as [|c a IH]; simpl; [reflexivity | now rewrite IH].
Qed.

Lemma ascii_lower_length (s : string) :
  String.length (ascii_lower s) = String.length s.
Proof.
  induction s as [|c s IH]; simpl; [reflexivity | now rewrite IH].
Qed.

Section Lower.

Variable lower : string -> string.

(** Lower-casing works character by character: it commutes with
    concatenation and keeps the number of characters. *)
Hypothesis lower_app :
  forall a b, lower (a ++ b)%string = (lower a ++ lower b)%string.
Hypothesis lower_length :
  forall s, String.length (lower s) = String.length s.

Lemma canonicalize_outcomes
      (base canonical given rest : string) (arguments : option mapping) :
  canonicalize lower (base ++ given ++ rest) base canonical given arguments
  = if (given =? canonical)%string then unchanged
    else if negb (lower canonical =? lower given)%string then assertion_failed
         else match arguments with
              | Some m =>
                  redirect (base ++ canonical ++ rest
                              ++ dict_to_querystring m)%string
              | None => type_error
              end.
Proof.
  unfold canonicalize.
  destruct (given =? canonical)%string; [reflexivity|]. simpl.
  destruct (lower canonical =? lower given)%string; [|reflexivity]. simpl.
  destruct arguments as [m|]; [|reflexivity].
  rewrite truthy_or_empty, <- (append_assoc base given rest), drop_app.
  reflexivity.
Qed.

(** X16.  For a requested path [base + given + rest], whenever
    [canonicalize] redirects, the new path is the requested one with
    nothing but the case of letters changed (the two agree once
    lower-cased, and have the same length), followed by the query string
    of the mapping passed.  With the default [arguments=None] it never
    redirects: a slug that differs from the canonical one but agrees with
    it once lower-cased raises [TypeError] instead. *)
Theorem canonicalize_redirect_changes_case_only
        (base canonical given rest : string) (arguments : option mapping) :
  (forall newpath,
      canonicalize lower (base ++ given ++ rest) base canonical given
                   arguments
      = redirect newpath ->
      exists m path,
        arguments = Some m
        /\ newpath = (path ++ dict_to_querystring m)%string
        /\ lower path = lower (base ++ given ++ rest)
        /\ String.length path = String.length (base ++ given ++ rest)%string)
  /\ (arguments = None ->
      canonicalize lower (base ++ given ++ rest) base canonical given
                   arguments
      = if (given =? canonical)%string then unchanged
        else if (lower canonical =? lower given)%string then type_error
             else assertion_failed).
Proof.
  rewrite canonicalize_outcomes. split.
  - intros newpath.
    destruct (given =? canonical)%string; [discriminate|].
    destruct (lower canonical =? lower given)%string eqn:Hlow;
      [|discriminate].
    simpl. destruct arguments as [m|]; [|discriminate].
    intros Heq. inversion Heq; subst newpath.
    apply String.eqb_eq in Hlow.
    exists m, (base ++ canonical ++ rest)%string.
    split; [reflexivity|]. split; [now rewrite !append_assoc|].
    assert (Hlen : String.length canonical = String.length given).
    { rewrite <- (lower_length canonical), <- (lower_length given).
      now rewrite Hlow. }
    split.
    + now rewrite !lower_app, Hlow.
    + now rewrite !length_append, Hlen.
  - intros ->. destruct (given =? canonical)%string; [reflexivity|].
    now destruct (lower canonical =? lower given)%string.
Qed.

End Lower.

Lemma canonicalize_redirect_witness :
  exists m path,
    Some [("tab", ["tips"])] = Some m
    /\ "/~/alice/giving/?tab=tips" = (path ++ dict_to_querystring m)%string
    /\ ascii_lower path = ascii_lower ("/~/" ++ "Alice" ++ "/giving/")
    /\ String.length path
       = String.length ("/~/" ++ "Alice" ++ "/giving/")%string.
Proof.
  exact (proj1 (canonicalize_redirect_changes_case_only
                  ascii_lower ascii_lower_app ascii_lower_length
                  "/~/" "alice" "Alice" "/giving/"
                  (Some [("tab", ["tips"])]))
               "/~/alice/giving/?tab=tips" eq_refl).
Defined.

Example canonicalize_case :
  canonicalize ascii_lower "/~/Alice/giving/" "/~/" "alice" "Alice"
               (Some [("tab", ["tips"; "teams"]); ("empty", []); ("q", ["1"])])
  = redirect "/~/alice/giving/?tab=tips&tab=teams&q=1".
Proof. reflexivity. Qed.

Example canonicalize_default_arguments :
  canonicalize ascii_lower "/~/Alice/giving/" "/~/" "alice" "Alice" None
  = type_error.
Proof. reflexivity. Qed.

Example dict_to_querystring_no_values :
  dict_to_querystring [("tab", [])] = "?".
Proof. reflexivity. Qed.

End CanonicalExtras.

(** ** Who gets a participant *)

Module GetParticipantExtras.
  Import Canonical GetParticipant.

Section Participants.

Variable lower : string -> string.
Variable Participant : Type.
Variable participant_eqb : Participant -> Participant -> bool.
Variable username : Participant -> string.
Variable is_closed : Participant -> bool.
Variable claimed_time : Participant -> option Z.
Variable resolve_unclaimed : Participant -> option string.
Variable from_username : string -> option Participant.

Local Abbreviation get :=
  (get_participant lower participant_eqb username is_closed claimed_time
                   resolve_unclaimed from_username).

(** X17.  A participant is returned only when it is the one the slug names
    and the slug is the exact spelling of its username; a closed account,
    or an unclaimed one while unclaimed accounts are being resolved, is
    returned to admins only; and with [restrict] the caller is logged in
    and is an admin or that very participant. *)
Theorem get_participant_returns_only_to_the_entitled
        (u : user Participant) (slug path_raw : string) (qs : mapping)
        (restrict resolve_unclaimed_flag : bool) (p : Participant) :
  get u slug path_raw qs restrict resolve_unclaimed_flag = inr p ->
  from_username slug = Some p
  /\ username p = slug
  /\ (is_closed p = true -> ADMIN u = true)
  /\ (claimed_time p = None -> resolve_unclaimed_flag = true ->
      ADMIN u = true)
  /\ (restrict = true ->
      ANON u = false
      /\ (ADMIN u = true
          \/ exists q, user_participant u = Some q
                       /\ participant_eqb p q = true)).
Proof.
  unfold get_participant.
  destruct (restrict && ANON u) eqn:Hanon; [discriminate|].
  destruct (from_username slug) as [q|] eqn:Hq; [|discriminate].
  unfold canonicalize.
  destruct (slug =? username q)%string eqn:Hslug; simpl.
  2:{ destruct (lower (username q) =? lower slug)%string; discriminate. }
  apply String.eqb_eq in Hslug.
  assert (Hrestrict : restrict = true -> ANON u = false).
  { intros ->. exact Hanon. }
  destruct (is_closed q) eqn:Hclosed.
  - destruct (ADMIN u) eqn:Hadmin; [|discriminate].
    intros Heq. inversion Heq; subst p. repeat split; auto.
  - assert (Hafter :
              forall r : raised + Participant,
                r = (if restrict && differs participant_eqb q (user_participant u)
                                 && negb (ADMIN u)
                     then inl (Response 403) else inr q) ->
                r = inr p ->
                p = q
                /\ (restrict = true ->
                    ADMIN u = true
                    \/ exists q', user_participant u = Some q'
                                  /\ participant_eqb p q' = true)).
    { intros r -> Hr.
      destruct (restrict && differs participant_eqb q (user_participant u)
                         && negb (ADMIN u)) eqn:Hc; [discriminate|].
      inversion Hr; subst p. split; [reflexivity|]. intros ->.
      simpl in Hc. destruct (ADMIN u); [now left|]. right.
      rewrite andb_true_r in Hc. unfold differs in Hc.
      destruct (user_participant u) as [q'|]; [|discriminate].
      exists q'. split; [reflexivity|]. now apply negb_false_iff. }
    destruct (claimed_time q) as [t|] eqn:Hclaimed.
    + intros Hr. destruct (Hafter _ eq_refl Hr) as [-> Hown].
      repeat split; auto; congruence.
    + destruct resolve_unclaimed_flag.
      * destruct (truthy_url (resolve_unclaimed q)); [discriminate|].
        destruct (ADMIN u) eqn:Hadmin; [|discriminate].
        intros Heq. inversion Heq; subst p. repeat split; auto.
      * intros Hr. destruct (Hafter _ eq_refl Hr) as [-> Hown].
        repeat split; auto; congruence.
Qed.

End Participants.

(** Participants named by number; bob asks for his own restricted page. *)
Lemma get_participant_witness :
  let names := fun n : Z => if n =? 1 then "alice" else "bob" in
  let find := fun s => if (s =? "alice")%string then Some 1
                       else if (s =? "bob")%string then Some 2 else None in
  let bob := mk_user Z false false (Some 2) in
  find "bob" = Some 2
  /\ ANON bob = false
  /\ (ADMIN bob = true
      \/ exists q, user_participant bob = Some q /\ (2 =? q) = true).
Proof.
  intros names find bob.
  destruct (get_participant_returns_only_to_the_entitled
              ascii_lower Z Z.eqb names (fun _ => false) (fun _ => Some 0)
              (fun _ => None) find bob "bob" "/~/bob/" [] true true 2 eq_refl)
    as [Hfind [_ [_ [_ Hr]]]].
  split; [exact Hfind|]. exact (Hr eq_refl).
Defined.

End GetParticipantExtras.

(** ** Email addresses *)

Module EmailExtras.
  Import StrFacts Email.

Lemma plus_matches (cls : ascii -> bool) (re : list atom) (s : string) :
  matches (plus cls :: re) s = true
  <-> exists a rest,
        s = (a ++ rest)%string /\ a <> EmptyString
        /\ all_chars cls a = true /\ matches re rest = true.
Proof.
  induction s as [|c s IH].
  - simpl. split; [discriminate|].
    intros [[|x a] [rest [Hs [Ha _]]]]; [contradiction | discriminate].
  - change (matches (plus cls :: re) (String c s))
      with (cls c && (matches (plus cls :: re) s || matches re s)).
    rewrite andb_true_iff, orb_true_iff, IH. split.
    + intros [Hc [[a [rest [Hs [Ha [Hall Hm]]]]]|Hm]].
      * exists (String c a), rest. simpl. rewrite Hc, Hall, Hs.
        repeat split; [discriminate | assumption].
      * exists (String c EmptyString), s. simpl. rewrite Hc.
        repeat split; [discriminate | assumption].
    + intros [[|x a] [rest [Hs [Ha [Hall Hm]]]]]; [contradiction|].
      simpl in Hs, Hall. inversion Hs; subst.
      apply andb_true_iff in Hall as [Hc Hall]. split; [assumption|].
      destruct a as [|y a]; [right; exact Hm|].
      left. exists (String y a), rest.
      repeat split; [discriminate | assumption | assumption].
Qed.

Lemma one_matches (cls : ascii -> bool) (re : list atom) (s : string) :
  matches (one cls :: re) s = true
  <-> exists c rest, s = String c rest /\ cls c = true
                     /\ matches re rest = true.
Proof.
  destruct s as [|c s]; simpl.
  - split; [discriminate|]. intros [c [rest [H _]]]. discriminate.
  - rewrite andb_true_iff. split.
    + intros [Hc Hm]. now exists c, s.
    + intros [c' [rest [Hs [Hc Hm]]]]. inversion Hs; subst. auto.
Qed.

Lemma all_chars_app (cls : ascii -> bool) (a b : string) :
  all_chars cls (a ++ b)%string = all_chars cls a && all_chars cls b.
Proof.
  induction a as [|c a IH]; simpl; [reflexivity|].
  now rewrite IH, andb_assoc.
Qed.

Lemma at_end_cases (s : string) :
  at_end s = true -> s = EmptyString \/ s = String newline EmptyString.
Proof.
  destruct s as [|c [|d s]]; simpl; try discriminate; [now left|].
  intros H. apply Ascii.eqb_eq in H. subst. now right.
Qed.

Lemma append_empty_r (s : string) : (s ++ EmptyString)%string = s.
Proof.
  induction s as [|c s IH]; simpl; [reflexivity | now rewrite IH].
Qed.

(** X18.  An address is accepted exactly when it is shorter than 255
    characters and reads [local@domain.tail] with the three parts
    non-empty and free of ['@']: exactly one ['@'], something before it,
    and after it a dot that has something on both sides. *)
Theorem valid_email_address_iff (email_address : string) :
  is_valid_email_address email_address = true
  <-> (String.length email_address < 255)%nat
      /\ exists a b c,
           email_address = (a ++ "@" ++ b ++ "." ++ c)%string
           /\ a <> EmptyString /\ b <> EmptyString /\ c <> EmptyString
           /\ all_chars not_at a = true /\ all_chars not_at b = true
           /\ all_chars not_at c = true.
Proof.
  unfold is_valid_email_address, _email_re.
  rewrite andb_true_iff, Nat.ltb_lt. split; intros [Hlen H];
    (split; [exact Hlen|]).
  - apply plus_matches in H as [a [r1 [Hs [Ha [Haa H]]]]].
    apply one_matches in H as [x [r2 [Hr1 [Hx H]]]].
    apply Ascii.eqb_eq in Hx. subst x.
    apply plus_matches in H as [b [r3 [Hr2 [Hb [Hbb H]]]]].
    apply one_matches in H as [y [r4 [Hr3 [Hy H]]]].
    apply Ascii.eqb_eq in Hy. subst y.
    apply plus_matches in H as [c [r5 [Hr4 [Hc [Hcc H]]]]].
    simpl in H. rewrite andb_true_r in H.
    exists a, b, (c ++ r5)%string. subst. repeat split; try assumption.
    + destruct c; [contradiction | discriminate].
    + rewrite all_chars_app, Hcc.
      destruct (at_end_cases _ H) as [-> | ->]; reflexivity.
  - destruct H as [a [b [c [Hs [Ha [Hb [Hc [Haa [Hbb Hcc]]]]]]]]].
    subst. apply plus_matches. exists a, ("@" ++ b ++ "." ++ c)%string.
    repeat split; try assumption.
    apply one_matches. exists "@"%char, (b ++ "." ++ c)%string.
    repeat split.
    apply plus_matches. exists b, ("." ++ c)%string.
    repeat split; try assumption.
    apply one_matches. exists "."%char, c. repeat split.
    apply plus_matches. exists c, EmptyString.
    repeat split; try assumption. now rewrite append_empty_r.
Qed.

Example email_plain : is_valid_email_address "alice@example.com" = true.
Proof. reflexivity. Qed.

Example email_two_ats : is_valid_email_address "a@b@example.com" = false.
Proof. reflexivity. Qed.

Example email_no_dot : is_valid_email_address "alice@localhost" = false.
Proof. reflexivity. Qed.

Example email_dot_first : is_valid_email_address "alice@.com" = false.
Proof. reflexivity. Qed.

Example email_dot_last : is_valid_email_address "alice@example." = false.
Proof. reflexivity. Qed.

Example email_spaces : is_valid_email_address "a b@c d.e f" = true.
Proof. reflexivity. Qed.

End EmailExtras.

(** ** Asset etags *)

Module EtagExtras.
  Import HttpCaching.

Section Files.

Variable b64_md5 : string -> string.

Local Abbreviation etag := (asset_etag b64_md5).
Local Abbreviation later := (after_calls b64_md5).

(** A call keeps every entry of the dictionary, whether it returns or
    raises. *)
Lemma asset_etag_keeps_entries
      (read : string -> option string) (ETAGS : etags) (path p v : string) :
  lookup p ETAGS = Some v ->
  lookup p (fst (etag read ETAGS path)) = Some v.
Proof.
  intros Hp. unfold asset_etag.
  destruct (endswith path ".spt"); [exact Hp|].
  destruct (lookup path ETAGS) as [h0|] eqn:Hl; [exact Hp|].
  destruct (read path) as [content|]; [|exact Hp].
  simpl. destruct (String.eqb_spec path p) as [->|_]; [congruence | exact Hp].
Qed.

Lemma after_calls_keeps_entries
      (calls : list ((string -> option string) * string)) (ETAGS : etags)
      (p v : string) :
  lookup p ETAGS = Some v -> lookup p (later calls ETAGS) = Some v.
Proof.
  revert ETAGS. induction calls as [|[read path] calls IH]; intros ETAGS Hp.
  - exact Hp.
  - simpl. apply IH. now apply asset_etag_keeps_entries.
Qed.

(** X19.  No call of [asset_etag], whether it returns or fails to open the
    file, changes or removes an entry [ETAGS] already has, and a call that
    fails leaves [ETAGS] as it was.  Once a call has returned an etag for a
    path, every later call for that path, after any number of other calls,
    returns the same etag and leaves [ETAGS] as it finds it, whatever the
    file holds by then and even if it can no longer be opened. *)
Theorem asset_etag_is_computed_once
        (read : string -> option string) (ETAGS : etags) (path : string) :
  (forall p v, lookup p ETAGS = Some v ->
               lookup p (fst (etag read ETAGS path)) = Some v)
  /\ (snd (etag read ETAGS path) = inl cannot_open ->
      fst (etag read ETAGS path) = ETAGS)
  /\ (forall h, snd (etag read ETAGS path) = inr h ->
      forall calls read',
        etag read' (later calls (fst (etag read ETAGS path))) path
        = (later calls (fst (etag read ETAGS path)), inr h)).
Proof.
  split; [intros p v; apply asset_etag_keeps_entries|]. split.
  - unfold asset_etag.
    destruct (endswith path ".spt"); [reflexivity|].
    destruct (lookup path ETAGS); [reflexivity|].
    destruct (read path); [discriminate | reflexivity].
  - intros h Hh calls read'.
    destruct (endswith path ".spt") eqn:Hspt.
    + unfold asset_etag in *. rewrite Hspt in *. simpl in Hh.
      now inversion Hh.
    + assert (Hcached : lookup path (fst (etag read ETAGS path)) = Some h).
      { unfold asset_etag in *. rewrite Hspt in *.
        destruct (lookup path ETAGS) as [h0|] eqn:Hl.
        - simpl in *. inversion Hh; subst. exact Hl.
        - destruct (read path) as [content|]; [|discriminate].
          simpl in *. inversion Hh; subst. now rewrite String.eqb_refl. }
      apply (after_calls_keeps_entries calls) in Hcached.
      unfold asset_etag at 1. now rewrite Hspt, Hcached.
Qed.

End Files.

(** A stylesheet that is read once, then asked for again after a call for
    another file and after it has been removed. *)
Lemma asset_etag_witness :
  let digest := fun content : string => ("md5-" ++ content ++ "==")%string in
  let first := fun _ : string => Some "body{}" in
  let gone := fun _ : string => @None string in
  let css := "www/assets/gratipay.css" in
  let js := "www/assets/gratipay.js" in
  asset_etag digest gone
             (after_calls digest [(first, js)]
                          (fst (asset_etag digest first [] css)))
             css
  = ([(js, "md5-body{}~~"); (css, "md5-body{}~~")], inr "md5-body{}~~").
Proof.
  intros digest first gone css js.
  exact (proj2 (proj2 (asset_etag_is_computed_once digest first [] css))
               "md5-body{}~~" eq_refl [(first, js)] gone).
Defined.

Example asset_etag_spt :
  asset_etag (fun s => s) (fun _ => None) [] "www/index.html.spt"
  = ([], inr EmptyString).
Proof. reflexivity. Qed.

Example asset_etag_missing_file :
  asset_etag (fun s => s) (fun _ => None) [("a.css", "x")] "b.css"
  = ([("a.css", "x")], inl cannot_open).
Proof. reflexivity. Qed.

End EtagExtras.
